(** * Face tracking, active-speaker selection and caption layout

    A shallow embedding of the per-frame pipeline of the realtime face
    captioning application ([FaceMeshView.tsx] and [FaceMeshRenderer.tsx]):
    the mouth-openness calculator, the mouth-movement detector, the face
    tracker, the active-speaker selector, and the caption layout of the
    overlay renderer.

    Conventions of the embedding:
    - a JavaScript [number] that carries a measure (a landmark coordinate, an
      openness, a pixel width) is a real number of [R]; NaN and the
      infinities are outside the model, and so is rounding;
    - a [number] that carries a count, an array index or a [Date.now()]
      reading is a [nat] or a [Z];
    - [number | null] is [option nat];
    - an array is a [list], indexed with stdpp's lookup [l !! i], which is
      [None] exactly where JavaScript yields [undefined];
    - the object used as a dictionary from face id to openness is a
      [gmap nat R];
    - the 2-D drawing context is the list of the calls made on it. *)

From Stdlib Require Import Reals Lra Lia ZArith List Ascii.
From Stdlib Require Import Permutation Sorted.
From Stdlib Require String.
From stdpp Require Import base option list gmap strings.

Local Open Scope R_scope.

(** ** Numbers *)

(** Strict comparison of two numbers, as a boolean. *)
Definition Rgtb (a b : R) : bool := if Rgt_dec a b then true else false.

(** Truthiness of a number: every number but [0] is truthy. *)
Definition truthy_number (a : R) : bool := if Req_dec_T a 0 then false else true.

(** [a || b] on numbers, where [a] may be [undefined]. *)
Definition number_or (a : option R) (b : R) : R :=
  match a with
  | Some v => if truthy_number v then v else b
  | None => b
  end.

Definition sumR (l : list R) : R := fold_right Rplus 0 l.

(** ** Data model *)

Record FaceLandmark : Type := mkFaceLandmark { x : R; y : R; z : R }.

Record FaceData : Type := mkFaceData {
  id : nat;
  landmarks : list FaceLandmark;
  isMovingMouth : bool;
  mouthOpenDistance : R;
  lastUpdateTime : Z
}.

Definition MOUTH_MOVEMENT_THRESHOLD : R := 3 / 1000.
Definition MOUTH_MOVEMENT_TIMEOUT : Z := 1500.

(** ** Mouth openness calculator *)

Definition calculateDistance (landmark1 landmark2 : FaceLandmark) : R :=
  let dx := landmark1.(x) - landmark2.(x) in
  let dy := landmark1.(y) - landmark2.(y) in
  let dz := landmark1.(z) - landmark2.(z) in
  sqrt (dx * dx + dy * dy + dz * dz).

Definition upperLipPoints : list nat :=
  [0; 13; 14; 17; 37; 39; 40; 61; 185; 267; 269; 270; 409]%nat.

Definition lowerLipPoints : list nat :=
  [14; 17; 84; 87; 91; 146; 181; 306; 308; 324; 375; 402; 405]%nat.

(** The index pairs the loop visits: [i] runs below the shorter length. *)
Definition lipPairs : list (nat * nat) := combine upperLipPoints lowerLipPoints.

(** One iteration of the loop, on the accumulators
    [(totalDistance, pairsCount)]. *)
Definition openness_step (lms : list FaceLandmark) (acc : R * nat)
    (pr : nat * nat) : R * nat :=
  let '(totalDistance, pairsCount) := acc in
  let '(upperIdx, lowerIdx) := pr in
  match lms !! upperIdx, lms !! lowerIdx with
  | Some u, Some l => (totalDistance + calculateDistance u l, S pairsCount)
  | _, _ => (totalDistance, pairsCount)
  end.

Definition calculateMouthOpenness (lms : list FaceLandmark) : R :=
  let '(totalDistance, pairsCount) :=
    fold_left (openness_step lms) lipPairs (0, 0%nat) in
  if (0 <? pairsCount)%nat then totalDistance / INR pairsCount else 0.

(** The pairs of points whose two indices both exist in the set, in the
    order of the configured index pairs. *)
Definition validPairs (lms : list FaceLandmark) : list (FaceLandmark * FaceLandmark) :=
  omap (fun pr : nat * nat =>
          match lms !! pr.1, lms !! pr.2 with
          | Some u, Some l => Some (u, l)
          | _, _ => None
          end) lipPairs.

Definition pairDistances (lms : list FaceLandmark) : list R :=
  map (fun ul : FaceLandmark * FaceLandmark => calculateDistance ul.1 ul.2) (validPairs lms).

(** The Euclidean distance of two points of the 3-D normalized space, in the
    words of the specification: the square root of the sum of the squares
    of the differences of the three coordinates. [calculateDistance] is
    compared with it. *)
Definition euclideanDistance (a b : FaceLandmark) : R :=
  sqrt (Rsqr (a.(x) - b.(x)) + Rsqr (a.(y) - b.(y)) + Rsqr (a.(z) - b.(z))).

(** ** Mouth movement detector *)

(** The openness history [previousMouthOpennessRef.current] is threaded
    through the call: the result is the updated history and the returned
    flag. *)
Definition detectMouthMovement (history : gmap nat R) (faceId : nat)
    (currentOpenness : R) : gmap nat R * bool :=
  let previousOpenness := number_or (history !! faceId) currentOpenness in
  let difference := Rabs (currentOpenness - previousOpenness) in
  (<[faceId := currentOpenness]> history,
   Rgtb difference MOUTH_MOVEMENT_THRESHOLD).

(** ** Face tracker *)

(** [currentTime] is the reading of [Date.now()] made by this call. The
    lookup of [existingFace] in the source has no effect on the result. *)
Definition updateFaceData (history : gmap nat R) (currentTime : Z)
    (faceLandmarks : list FaceLandmark) (faceIndex : nat) : gmap nat R * FaceData :=
  let currentMouthOpenness := calculateMouthOpenness faceLandmarks in
  let '(history', isMoving) :=
    detectMouthMovement history faceIndex currentMouthOpenness in
  (history',
   {| id := faceIndex;
      landmarks := faceLandmarks;
      isMovingMouth := isMoving;
      mouthOpenDistance := currentMouthOpenness;
      lastUpdateTime := currentTime |}).

(** The [forEach] over the detected landmark sets, from position [index] on;
    [clock k] is the [Date.now()] reading of the [k]-th call of the pass. *)
Fixpoint updateFaces (clock : nat -> Z) (history : gmap nat R) (index : nat)
    (sets : list (list FaceLandmark)) : gmap nat R * list FaceData :=
  match sets with
  | [] => (history, [])
  | faceLandmarks :: rest =>
      let '(history1, updatedFace) :=
        updateFaceData history (clock index) faceLandmarks index in
      let '(history2, updatedFaces) := updateFaces clock history1 (S index) rest in
      (history2, updatedFace :: updatedFaces)
  end.

(** ** Active speaker selector *)

(** [Array.prototype.sort] with a comparison function: a stable sort, which
    keeps [a] before [b] unless [cmp a b > 0]. Written as an insertion
    sort that inserts the elements from the last to the first. *)
Fixpoint sort_insert {A} (cmp : A -> A -> R) (a : A) (l : list A) : list A :=
  match l with
  | [] => [a]
  | b :: l' => if Rgtb (cmp a b) 0 then b :: sort_insert cmp a l' else a :: b :: l'
  end.

Definition array_sort {A} (cmp : A -> A -> R) (l : list A) : list A :=
  fold_right (sort_insert cmp) [] l.

(** The predicate of the filter: the mouth moves, or the record is younger
    than the timeout. *)
Definition isMovingFace (currentTime : Z) (face : FaceData) : bool :=
  face.(isMovingMouth) ||
  (currentTime - face.(lastUpdateTime) <? MOUTH_MOVEMENT_TIMEOUT)%Z.

(** The comparison function of the sort: most open mouth first. *)
Definition byMouthOpenDistance (a b : FaceData) : R :=
  b.(mouthOpenDistance) - a.(mouthOpenDistance).

(** [currentTime] is the [Date.now()] reading of the call and [activeFaceId]
    the content of [activeFaceIdRef.current]. After the sort the array is
    not empty, so that [movingFaces[0]] exists ([array_sort_nil]). *)
Definition determineSpeakingFace (currentTime : Z) (activeFaceId : option nat)
    (updatedFaces : list FaceData) : option nat :=
  let movingFaces := List.filter (isMovingFace currentTime) updatedFaces in
  if (length movingFaces =? 0)%nat then
    match activeFaceId with
    | Some active => Some active
    | None =>
        match updatedFaces with
        | first :: _ => Some first.(id)
        | [] => None
        end
    end
  else
    id <$> head (array_sort byMouthOpenDistance movingFaces).

(** ** Caption layout: word wrap *)

Definition space : ascii := " "%char.

(** [text.split(' ')]: the pieces between the spaces, of which there is
    always at least one. *)
Fixpoint split (text : string) : list string :=
  match text with
  | EmptyString => [EmptyString]
  | String c rest =>
      if Ascii.eqb c space then EmptyString :: split rest
      else
        match split rest with
        | word :: words => String c word :: words
        | [] => [String c EmptyString]
        end
  end.

(** [lines.join(' ')]. *)
Definition join (lines : list string) : string := String.concat " " lines.

(** Truthiness of a string: every string but the empty one is truthy. *)
Definition truthy_string (s : string) : bool := negb (String.eqb s "").

(** The line that is measured: the current line with the word appended. *)
Definition testLineOf (currentLine word : string) : string :=
  if truthy_string currentLine then currentLine +:+ " " +:+ word else word.

(** One call of the [forEach] callback on [(lines, currentLine)]; [measure]
    is [ctx.measureText(_).width] for the font of the context. *)
Definition wrap_step (measure : string -> R) (maxWidth : R)
    (st : list string * string) (word : string) : list string * string :=
  let '(lines, currentLine) := st in
  let testLine := testLineOf currentLine word in
  if Rgtb (measure testLine) maxWidth && negb (String.eqb currentLine "") then
    (lines ++ [currentLine], word)
  else
    (lines, testLine).

(** The state of the loop after the words [words]. *)
Definition wrap_loop (measure : string -> R) (maxWidth : R)
    (words : list string) : list string * string :=
  fold_left (wrap_step measure maxWidth) words ([], EmptyString).

Definition wrapText (measure : string -> R) (text : string) (maxWidth : R)
    : list string :=
  let words := split text in
  let '(lines, currentLine) := wrap_loop measure maxWidth words in
  if truthy_string currentLine then lines ++ [currentLine] else lines.

(** ** Drawing surface and notifications *)

Record Caption : Type := mkCaption { text : string; timestamp : Z }.

Inductive ConnectorSet : Type :=
  | FACEMESH_TESSELATION
  | FACEMESH_RIGHT_EYE
  | FACEMESH_LEFT_EYE
  | FACEMESH_RIGHT_EYEBROW
  | FACEMESH_LEFT_EYEBROW
  | FACEMESH_FACE_OVAL
  | FACEMESH_LIPS.

Inductive FillStyle : Type :=
  | Color (c : string)
  | LinearGradient (x0 y0 x1 y1 : R) (colorStops : list (R * string)).

Inductive Radii : Type :=
  | Uniform (r : R)
  | Corners (topLeft topRight bottomLeft bottomRight : R).

(** The calls made on the drawing context, and the two calls of the
    drawing utilities that take the context as their first argument. *)
Inductive CanvasCall : Type :=
  | Save
  | Restore
  | ClearRect (cx cy w h : R)
  | Scale (sx sy : R)
  | Translate (tx ty : R)
  | SetFont (font : string)
  | SetTextAlign (align : string)
  | SetTextBaseline (baseline : string)
  | SetShadowColor (c : string)
  | SetShadowBlur (blur : R)
  | SetFillStyle (style : FillStyle)
  | SetStrokeStyle (c : string)
  | SetLineWidth (w : R)
  | BeginPath
  | Arc (cx cy radius startAngle endAngle : R)
  | RoundRect (cx cy w h : R) (radii : Radii)
  | MoveTo (cx cy : R)
  | LineTo (cx cy : R)
  | Fill
  | Stroke
  | FillText (line : string) (cx cy : R)
  | DrawConnectors (lms : list FaceLandmark) (connections : ConnectorSet)
      (color : string) (lineWidth : R)
  | DrawLandmarks (lms : list FaceLandmark) (color : string)
      (lineWidth radius : R).

(** What the callback tells its collaborators. *)
Inductive Effect : Type :=
  | OnActiveFaceChange (faceId : option nat)
  | SetFaces (faces : list FaceData).

Record World : Type := mkWorld {
  calls : list CanvasCall;
  effects : list Effect
}.

(** How a piece of code ends: normally with a value, or with an exception. *)
Inductive Completion (A : Type) : Type :=
  | Normal (a : A)
  | Throw (error : string).
Arguments Normal {A} a.
Arguments Throw {A} error.

(** Code that draws and notifies, and may throw. *)
Definition Js (A : Type) : Type := World -> Completion A * World.

Definition ret {A} (a : A) : Js A := fun w => (Normal a, w).

Definition bind {A B} (m : Js A) (k : A -> Js B) : Js B :=
  fun w =>
    match m w with
    | (Normal a, w') => k a w'
    | (Throw e, w') => (Throw e, w')
    end.

Definition throw {A} (e : string) : Js A := fun w => (Throw e, w).

Definition call (c : CanvasCall) : Js unit :=
  fun w => (Normal tt, {| calls := w.(calls) ++ [c]; effects := w.(effects) |}).

Definition emit (e : Effect) : Js unit :=
  fun w => (Normal tt, {| calls := w.(calls); effects := w.(effects) ++ [e] |}).

Declare Scope js_scope.
Delimit Scope js_scope with js.
Notation "v <- m ;; k" := (bind m (fun v => k))
  (at level 100, m at next level, right associativity) : js_scope.
Notation "m ;; k" := (bind m (fun _ => k))
  (at level 100, right associativity) : js_scope.
Local Open Scope js_scope.

Definition when (b : bool) (m : Js unit) : Js unit := if b then m else ret tt.

(** [array.forEach((item, index) => ...)], counting from [index]. *)
Fixpoint forEachFrom {A} (index : nat) (l : list A) (f : A -> nat -> Js unit)
    : Js unit :=
  match l with
  | [] => ret tt
  | item :: rest => f item index ;; forEachFrom (S index) rest f
  end.

Definition forEach {A} (l : list A) (f : A -> nat -> Js unit) : Js unit :=
  forEachFrom 0 l f.

(** Truthiness of a value that is an object or [undefined]. *)
Definition truthy {A} (o : option A) : bool :=
  match o with Some _ => true | None => false end.

(** Reading a property: of [undefined] it throws. *)
Definition prop {A B} (field : A -> B) (o : option A) : Js B :=
  match o with
  | Some obj => ret (field obj)
  | None => throw "TypeError: Cannot read properties of undefined"
  end.

(** ** Overlay renderer *)

Definition drawSphere (cx cy radius : R) (color : string) : Js unit :=
  call BeginPath ;;
  call (Arc cx cy radius 0 (2 * PI)) ;;
  call (SetFillStyle (Color color)) ;;
  call Fill ;;
  call (SetStrokeStyle "white") ;;
  call (SetLineWidth 2) ;;
  call Stroke.

Definition features : list ConnectorSet :=
  [FACEMESH_RIGHT_EYE; FACEMESH_LEFT_EYE; FACEMESH_RIGHT_EYEBROW;
   FACEMESH_LEFT_EYEBROW; FACEMESH_FACE_OVAL; FACEMESH_LIPS].

Definition captionFont : string := "16px Inter, system-ui, sans-serif".

(** The mesh, the feature outlines and the landmark dots. *)
Definition drawMesh (lms : list FaceLandmark) : Js unit :=
  call (DrawConnectors lms FACEMESH_TESSELATION "rgba(255,255,255,0.08)" (5 / 10)) ;;
  forEach features (fun feature _ =>
    call (DrawConnectors lms feature "rgba(255,255,255,0.3)" (8 / 10))) ;;
  call (DrawLandmarks lms "rgba(255,255,255,0.2)" (5 / 10) (8 / 10)).

(** The body of [if (forehead)]. *)
Definition drawForehead (forehead : option FaceLandmark)
    (canvasWidth canvasHeight : R) (isActiveFace : bool) : Js unit :=
  fx <- prop x forehead ;;
  fy <- prop y forehead ;;
  let cx := fx * canvasWidth in
  let cy := fy * canvasHeight in
  drawSphere cx cy 6 (if isActiveFace then "#ADD8E6" else "#AAAAAA").

(** The body of [if (forehead && caption.text)]; [measureText font s] is
    the width [ctx.measureText(s).width] when the font of the context is
    [font]. *)
Definition drawCaption (measureText : string -> string -> R)
    (forehead : option FaceLandmark) (canvasWidth canvasHeight : R)
    (caption : Caption) (isActiveFace : bool) : Js unit :=
  fx <- prop x forehead ;;
  fy <- prop y forehead ;;
  let cx := fx * canvasWidth in
  let cy := fy * canvasHeight in
  call Save ;;
  call (SetFont captionFont) ;;
  call (SetTextAlign "center") ;;
  call (SetTextBaseline "middle") ;;
  let displayText :=
    if truthy_string caption.(text) then caption.(text)
    else "Speak to add captions..." in
  let maxBoxWidth := 300 in
  let lineHeight := 20 in
  let textLines := wrapText (measureText captionFont) displayText (maxBoxWidth - 40) in
  let textWidth := maxBoxWidth in
  let textHeight := Rmax (lineHeight * INR (length textLines) + 20) 46 in
  let indicatorHeight := 12 in
  let verticalOffset := textHeight + 50 in
  call (SetShadowColor "rgba(0, 0, 0, 0.2)") ;;
  call (SetShadowBlur 8) ;;
  call (SetFillStyle (Color (if isActiveFace then "rgba(0, 132, 255, 0.85)"
                             else "rgba(0, 132, 255, 0.45)"))) ;;
  call BeginPath ;;
  call (RoundRect (cx - textWidth / 2) (cy - verticalOffset) textWidth textHeight
          (Uniform 12)) ;;
  call (MoveTo (cx - 12) (cy - verticalOffset + textHeight)) ;;
  call (LineTo cx (cy - verticalOffset + textHeight + indicatorHeight)) ;;
  call (LineTo (cx + 12) (cy - verticalOffset + textHeight)) ;;
  call Fill ;;
  call (SetShadowColor (if isActiveFace then "rgba(255, 255, 255, 0.5)"
                        else "rgba(255, 255, 255, 0.3)")) ;;
  call (SetShadowBlur 10) ;;
  call (SetShadowBlur 4) ;;
  call (SetShadowColor "rgba(0, 0, 0, 0.4)") ;;
  let gradient :=
    LinearGradient (cx - textWidth / 2) (cy - verticalOffset)
      (cx - textWidth / 2) (cy - verticalOffset + 20)
      [(0, if isActiveFace then "rgba(255, 255, 255, 0.2)"
           else "rgba(255, 255, 255, 0.15)");
       (1, "rgba(255, 255, 255, 0)")] in
  call (SetFillStyle gradient) ;;
  call BeginPath ;;
  call (RoundRect (cx - textWidth / 2) (cy - verticalOffset) textWidth 20
          (Corners 12 12 0 0)) ;;
  call Fill ;;
  call (SetFillStyle (Color (if isActiveFace then "white"
                             else "rgba(255, 255, 255, 0.8)"))) ;;
  call (Scale (-1) 1) ;;
  forEach textLines (fun line index =>
    let lineY := cy - verticalOffset + INR index * lineHeight + lineHeight / 2 + 10 in
    call (FillText line (- cx) lineY)) ;;
  call (Scale (-1) 1) ;;
  call Restore.

(** [isActiveFace] is [None] when the property is left out; it then
    defaults to [true]. *)
Definition FaceMeshRenderer (measureText : string -> string -> R)
    (lms : list FaceLandmark) (canvasWidth canvasHeight : R)
    (caption : Caption) (isActiveFace : option bool) : Js unit :=
  let isActiveFace := default true isActiveFace in
  drawMesh lms ;;
  let forehead := lms !! 10%nat in
  when (truthy forehead)
    (drawForehead forehead canvasWidth canvasHeight isActiveFace) ;;
  when (truthy forehead && truthy_string caption.(text))
    (drawCaption measureText forehead canvasWidth canvasHeight caption isActiveFace).

(** ** The per-frame callback *)

Record CanvasElement : Type := mkCanvas {
  width : R;
  height : R;
  context2d : bool
}.

(** The part of the callback after the two early returns, on a canvas of
    size [w] by [h]. The openness history is threaded explicitly;
    [activeFaceId] is [activeFaceIdRef.current] and [latestCaption] is
    [latestCaptionRef.current]. *)
Definition processFrame (measureText : string -> string -> R) (w h : R)
    (clock : nat -> Z) (history : gmap nat R) (activeFaceId : option nat)
    (latestCaption : Caption) (multiFaceLandmarks : option (list (list FaceLandmark)))
    : gmap nat R * Js unit :=
  let sets := default [] multiFaceLandmarks in
  let '(history', updatedFaces) := updateFaces clock history 0 sets in
  let speakingFaceId :=
    determineSpeakingFace (clock (length sets)) activeFaceId updatedFaces in
  (history',
   call Save ;;
   call (ClearRect 0 0 w h) ;;
   call (Scale (-1) 1) ;;
   call (Translate (- w) 0) ;;
   when (negb (bool_decide (speakingFaceId = activeFaceId)))
     (emit (OnActiveFaceChange speakingFaceId)) ;;
   forEach sets (fun lms index =>
     FaceMeshRenderer measureText lms w h latestCaption
       (Some (bool_decide (Some index = speakingFaceId)))) ;;
   emit (SetFaces updatedFaces) ;;
   call Restore).

(** [canvas] is [canvasRef.current] and [video] the size of the video
    element, if there is one; the canvas takes the size of the video. *)
Definition onResults (measureText : string -> string -> R)
    (canvas : option CanvasElement) (video : option (R * R))
    (clock : nat -> Z) (history : gmap nat R) (activeFaceId : option nat)
    (latestCaption : Caption) (multiFaceLandmarks : option (list (list FaceLandmark)))
    : gmap nat R * Js unit :=
  match canvas with
  | None => (history, ret tt)
  | Some canvas =>
      if negb canvas.(context2d) then (history, ret tt)
      else
        let '(w, h) :=
          match video with
          | Some size => size
          | None => (canvas.(width), canvas.(height))
          end in
        processFrame measureText w h clock history activeFaceId latestCaption
          multiFaceLandmarks
  end.

(** The selector's result in a pass, for the statements below. *)
Definition speakingFaceOf (clock : nat -> Z) (history : gmap nat R)
    (activeFaceId : option nat) (multiFaceLandmarks : option (list (list FaceLandmark)))
    : option nat :=
  let sets := default [] multiFaceLandmarks in
  determineSpeakingFace (clock (length sets)) activeFaceId
    (updateFaces clock history 0 sets).2.

(** The world before a pass: nothing drawn, nothing told. *)
Definition emptyWorld : World := {| calls := []; effects := [] |}.

(** ** Notions used in the statements *)

(** [face] is the record of [faces] with the largest mouth opening, and the
    first of them in the order of the list when several have it. *)
Definition isFirstLargest (face : FaceData) (faces : list FaceData) : Prop :=
  exists before after,
    faces = before ++ face :: after
    /\ Forall (fun other => other.(mouthOpenDistance) < face.(mouthOpenDistance)) before
    /\ Forall (fun other => other.(mouthOpenDistance) <= face.(mouthOpenDistance)) after.

(** The ids told to the caption router, in the order of the calls. *)
Definition notifications (es : list Effect) : list (option nat) :=
  omap (fun e => match e with
                 | OnActiveFaceChange faceId => Some faceId
                 | SetFaces _ => None
                 end) es.

(** [m] tells the caption router [ns], whatever the world it starts in. *)
Definition notes {A} (m : Js A) (ns : list (option nat)) : Prop :=
  forall w, notifications (m w).2.(effects) = notifications w.(effects) ++ ns.

(** [m] only draws: it leaves the effects as they are. *)
Definition silent {A} (m : Js A) : Prop :=
  forall w, (m w).2.(effects) = w.(effects).

(** [m] ends normally after making the calls [cs] and nothing else. *)
Definition draws (m : Js unit) (cs : list CanvasCall) : Prop :=
  forall w,
    m w = (Normal tt, {| calls := w.(calls) ++ cs; effects := w.(effects) |}).

Fixpoint containsSpace (s : string) : bool :=
  match s with
  | EmptyString => false
  | String c rest => Ascii.eqb c space || containsSpace rest
  end.

(** [line] is a run of consecutive words of [words], joined by spaces. *)
Definition isRun (line : string) (words : list string) : Prop :=
  exists before run after,
    words = before ++ run ++ after /\ run <> [] /\ line = join run.

(** Appending [word] to the line [currentLine] would exceed the width, and
    the line is not empty. *)
Definition overflows (measure : string -> R) (maxWidth : R)
    (currentLine word : string) : Prop :=
  measure (testLineOf currentLine word) > maxWidth /\ currentLine <> EmptyString.

(** The heights of the caption bubbles among the calls: a bubble is the
    rounded rectangle with one radius for its four corners. *)
Definition bubbleHeights (cs : list CanvasCall) : list R :=
  flat_map (fun c => match c with
                     | RoundRect _ _ _ h (Uniform _) => [h]
                     | _ => []
                     end) cs.

(** The forehead marker is the only circle drawn. *)
Definition isMarkerCall (c : CanvasCall) : bool :=
  match c with Arc _ _ _ _ _ => true | _ => false end.

(** The calls that draw the mesh: those of the drawing utilities. *)
Definition isMeshCall (c : CanvasCall) : bool :=
  match c with
  | DrawConnectors _ _ _ _ | DrawLandmarks _ _ _ _ => true
  | _ => false
  end.

(** The landmark [p] moved by the vector [(dx, dy, dz)]. *)
Definition translate (dx dy dz : R) (p : FaceLandmark) : FaceLandmark :=
  {| x := p.(x) + dx; y := p.(y) + dy; z := p.(z) + dz |}.

(** The lines of text among the calls, each with the point it is drawn
    at. *)
Definition drawnLines (cs : list CanvasCall) : list (string * R * R) :=
  flat_map (fun c => match c with
                     | FillText line cx cy => [(line, cx, cy)]
                     | _ => []
                     end) cs.

(** The caption bubbles among the calls: left, top, width and height. *)
Definition bubbleRects (cs : list CanvasCall) : list (R * R * R * R) :=
  flat_map (fun c => match c with
                     | RoundRect cx cy w h (Uniform _) => [(cx, cy, w, h)]
                     | _ => []
                     end) cs.

(** The points of the paths made of straight lines: the tail of a bubble. *)
Definition tailPath (cs : list CanvasCall) : list (R * R) :=
  flat_map (fun c => match c with
                     | MoveTo cx cy | LineTo cx cy => [(cx, cy)]
                     | _ => []
                     end) cs.

(** The scalings of the context among the calls. *)
Definition scaleCalls (cs : list CanvasCall) : list (R * R) :=
  flat_map (fun c => match c with
                     | Scale sx sy => [(sx, sy)]
                     | _ => []
                     end) cs.

(** The call that draws a line of text at a point. *)
Definition fillTextCall (t : string * R * R) : CanvasCall :=
  FillText t.1.1 t.1.2 t.2.

Definition isSaveCall (c : CanvasCall) : bool :=
  match c with Save => true | _ => false end.

Definition isRestoreCall (c : CanvasCall) : bool :=
  match c with Restore => true | _ => false end.

(** [m] ends normally after making the calls [cs] and telling [es], and
    nothing else. *)
Definition performs (m : Js unit) (cs : list CanvasCall) (es : list Effect) : Prop :=
  forall w,
    m w = (Normal tt, {| calls := w.(calls) ++ cs; effects := w.(effects) ++ es |}).

(** ** Speech recognition results *)

Record SpeechRecognitionAlternative : Type := mkAlternative {
  transcript : string;
  confidence : R
}.

(** A recognition result: its alternatives, indexed from [0], and whether
    it is final. *)
Record SpeechRecognitionResult : Type := mkResult {
  alternatives : list SpeechRecognitionAlternative;
  isFinal : bool
}.

(** [result[0].transcript]: it throws when the result has no alternative. *)
Definition firstTranscript (result : SpeechRecognitionResult) : Completion string :=
  match result.(alternatives) !! 0%nat with
  | Some alternative => Normal alternative.(transcript)
  | None => Throw "TypeError: Cannot read properties of undefined"
  end.

(** [Array.from(results).map(result => result[0].transcript)]: the results
    are visited in order, and an exception ends the visit. *)
Fixpoint firstTranscripts (results : list SpeechRecognitionResult)
    : Completion (list string) :=
  match results with
  | [] => Normal []
  | result :: rest =>
      match firstTranscript result with
      | Normal t =>
          match firstTranscripts rest with
          | Normal ts => Normal (t :: ts)
          | Throw e => Throw e
          end
      | Throw e => Throw e
      end
  end.

(** The transcript the [onresult] handler hands to [onCaptionChange]:
    the pieces joined with the empty separator. *)
Definition transcriptOf (results : list SpeechRecognitionResult) : Completion string :=
  match firstTranscripts results with
  | Normal ts => Normal (String.concat "" ts)
  | Throw e => Throw e
  end.

(** Between two consecutive groups of words the break is forced: the first
    word of the later group, added to the line of the earlier group, would
    exceed the width. *)
Definition breaksForced (measure : string -> R) (maxWidth : R)
    (groups : list (list string)) : Prop :=
  forall i group next word,
    groups !! i = Some group -> groups !! S i = Some next ->
    head next = Some word ->
    measure (join group +:+ " " +:+ word) > maxWidth.

(** Within a group of words, every word after the first fitted on the
    line of the words before it. *)
Definition groupFits (measure : string -> R) (maxWidth : R)
    (group : list string) : Prop :=
  forall before word after,
    group = before ++ word :: after -> before <> [] ->
    measure (join before +:+ " " +:+ word) <= maxWidth.

(** ** Mouth openness: proofs *)

Lemma calculateDistance_nonneg a b : 0 <= calculateDistance a b.
Proof. unfold calculateDistance. apply sqrt_pos. Qed.

Lemma calculateDistance_same a : calculateDistance a a = 0.
Proof.
  unfold calculateDistance.
  replace (_ + _) with 0 by ring. apply sqrt_0.
Qed.

Lemma sumR_nonneg l : Forall (fun d => 0 <= d) l -> 0 <= sumR l.
Proof.
  induction 1 as [|d l Hd _ IH]; simpl; lra.
Qed.

Lemma sumR_zero l : Forall (fun d => d = 0) l -> sumR l = 0.
Proof.
  induction 1 as [|d l Hd _ IH]; simpl; lra.
Qed.

(** The loop over any list of index pairs adds, to the accumulators, the
    distances of the valid pairs and their number. *)
Lemma openness_loop lms prs total count :
  let vs := omap (fun pr : nat * nat =>
          match lms !! pr.1, lms !! pr.2 with
          | Some u, Some l => Some (u, l)
          | _, _ => None
          end) prs in
  fold_left (openness_step lms) prs (total, count) =
  (total + sumR (map (fun ul : FaceLandmark * FaceLandmark => calculateDistance ul.1 ul.2) vs),
   (count + length vs)%nat).
Proof.
  revert total count. induction prs as [|[u l] prs IH]; intros total count; simpl.
  - f_equal; [lra | lia].
  - destruct (lms !! u) as [a|] eqn:Ha, (lms !! l) as [b|] eqn:Hb; simpl;
      rewrite IH; simpl; try reflexivity.
    rewrite Rplus_assoc, Nat.add_succ_r. reflexivity.
Qed.

Lemma validPairs_elem lms a b :
  In (a, b) (validPairs lms) ->
  exists upperIdx lowerIdx,
    In (upperIdx, lowerIdx) lipPairs /\
    lms !! upperIdx = Some a /\ lms !! lowerIdx = Some b.
Proof.
  unfold validPairs. rewrite <- list_elem_of_In, list_elem_of_omap.
  intros [[u l] [Hin Hsel]]. simpl in Hsel.
  destruct (lms !! u) as [a'|] eqn:Ha; [|discriminate].
  destruct (lms !! l) as [b'|] eqn:Hb; [|discriminate].
  injection Hsel as -> ->.
  exists u, l. rewrite <- list_elem_of_In. auto.
Qed.

Lemma calculateMouthOpenness_unfold lms :
  calculateMouthOpenness lms =
  if (0 <? length (validPairs lms))%nat
  then sumR (pairDistances lms) / INR (length (validPairs lms))
  else 0.
Proof.
  unfold calculateMouthOpenness.
  pose proof (openness_loop lms lipPairs 0 0%nat) as Hloop. cbv zeta in Hloop.
  fold (validPairs lms) in Hloop. fold (pairDistances lms) in Hloop.
  rewrite Hloop, Rplus_0_l. reflexivity.
Qed.

Lemma pairDistances_nonneg lms : Forall (fun d => 0 <= d) (pairDistances lms).
Proof.
  unfold pairDistances. apply Forall_map, Forall_forall.
  intros ul _. apply calculateDistance_nonneg.
Qed.

(** The distance the code computes is the Euclidean distance. *)
Lemma calculateDistance_euclidean a b :
  calculateDistance a b = euclideanDistance a b.
Proof. reflexivity. Qed.

Lemma pairDistances_euclidean lms :
  pairDistances lms
  = map (fun ul : FaceLandmark * FaceLandmark => euclideanDistance ul.1 ul.2)
      (validPairs lms).
Proof. reflexivity. Qed.

(** C1. The openness of a landmark set is the sum of the 3-D Euclidean
    distances of the configured lip index pairs whose two indices both
    exist in the set, divided by the number of these pairs, and [0] when
    there is no such pair; it is never negative; and it is [0] for a set in
    which the upper and the lower point of every pair are the same point. *)
Theorem calculateMouthOpenness_spec (lms : list FaceLandmark) :
  calculateMouthOpenness lms =
    (if bool_decide (validPairs lms = [])
     then 0
     else sumR (map (fun ul : FaceLandmark * FaceLandmark =>
                       euclideanDistance ul.1 ul.2) (validPairs lms))
          / INR (length (validPairs lms)))
  /\ 0 <= calculateMouthOpenness lms
  /\ ((forall upperIdx lowerIdx a b,
          In (upperIdx, lowerIdx) lipPairs ->
          lms !! upperIdx = Some a -> lms !! lowerIdx = Some b -> a = b) ->
      calculateMouthOpenness lms = 0).
Proof.
  rewrite calculateMouthOpenness_unfold, <- pairDistances_euclidean.
  destruct (validPairs lms) as [|p ps] eqn:Hvp.
  - simpl. split; [reflexivity|]. split; [lra | reflexivity].
  - rewrite bool_decide_eq_false_2 by discriminate.
    change (0 <? length (p :: ps))%nat with true. cbv iota.
    split; [reflexivity|].
    assert (Hpos : 0 < INR (length (p :: ps))) by (apply lt_0_INR; simpl; lia).
    split.
    + apply Rmult_le_pos.
      * apply sumR_nonneg, pairDistances_nonneg.
      * left. apply Rinv_0_lt_compat, Hpos.
    + intros Hsame.
      rewrite sumR_zero; [unfold Rdiv; ring|].
      unfold pairDistances. apply Forall_map, Forall_forall.
      intros [a b] Hin. simpl. apply list_elem_of_In in Hin.
      destruct (validPairs_elem lms a b Hin) as (u & l & Hul & Ha & Hb).
      rewrite (Hsame u l a b Hul Ha Hb). apply calculateDistance_same.
Qed.

(** Two sets of fifteen landmarks, in which the pair of the indices 0 and
    14 is the only valid one. In the first, the two points lie 3/100 apart
    in [x] and 4/100 apart in [y]: the openness is 5/100. The second is
    fifteen copies of one point: the openness is 0. *)
Lemma calculateMouthOpenness_spec_witness :
  calculateMouthOpenness
    (replicate 14 (mkFaceLandmark 0 0 0) ++ [mkFaceLandmark (3 / 100) (4 / 100) 0])
  = 5 / 100
  /\ calculateMouthOpenness (replicate 15 (mkFaceLandmark (1 / 2) (1 / 2) 0)) = 0.
Proof.
  split.
  - rewrite (proj1 (calculateMouthOpenness_spec _)).
    change (validPairs
              (replicate 14 (mkFaceLandmark 0 0 0)
               ++ [mkFaceLandmark (3 / 100) (4 / 100) 0]))
      with [(mkFaceLandmark 0 0 0, mkFaceLandmark (3 / 100) (4 / 100) 0)].
    rewrite bool_decide_eq_false_2 by discriminate.
    unfold euclideanDistance. cbn [map sumR fold_right fst snd x y z length INR].
    replace (Rsqr (0 - 3 / 100) + Rsqr (0 - 4 / 100) + Rsqr (0 - 0))
      with (Rsqr (5 / 100)) by (unfold Rsqr; lra).
    rewrite sqrt_Rsqr by lra. lra.
  - apply (proj2 (proj2 (calculateMouthOpenness_spec _))).
    intros upperIdx lowerIdx a b _ Ha Hb.
    apply lookup_replicate in Ha, Hb.
    destruct Ha as [-> _], Hb as [-> _]. reflexivity.
Defined.

(** ** Mouth movement detector: proofs *)

Lemma Rgtb_true a b : Rgtb a b = true <-> a > b.
Proof. unfold Rgtb. destruct (Rgt_dec a b); split; auto; discriminate. Qed.

Lemma Rgtb_false a b : Rgtb a b = false <-> a <= b.
Proof.
  unfold Rgtb. destruct (Rgt_dec a b); split; auto; try discriminate; lra.
Qed.

Lemma truthy_number_true a : truthy_number a = true <-> a <> 0.
Proof.
  unfold truthy_number. destruct (Req_dec_T a 0); split; auto; discriminate.
Qed.

Lemma number_or_undefined b : number_or None b = b.
Proof. reflexivity. Qed.

Lemma number_or_truthy a b : a <> 0 -> number_or (Some a) b = a.
Proof.
  intros Ha. unfold number_or.
  apply truthy_number_true in Ha. rewrite Ha. reflexivity.
Qed.

Lemma number_or_zero b : number_or (Some 0) b = b.
Proof.
  unfold number_or, truthy_number.
  destruct (Req_dec_T 0 0) as [_|Hne]; [reflexivity | contradiction].
Qed.

(** The detector always stores the current openness. *)
Lemma detectMouthMovement_stores history faceId currentOpenness :
  (detectMouthMovement history faceId currentOpenness).1 !! faceId
  = Some currentOpenness.
Proof. unfold detectMouthMovement. simpl. apply lookup_insert_eq. Qed.

(** The entries of the other faces are left as they are. *)
Lemma detectMouthMovement_others history faceId currentOpenness other :
  faceId <> other ->
  (detectMouthMovement history faceId currentOpenness).1 !! other
  = history !! other.
Proof. intros Hne. unfold detectMouthMovement. simpl. by apply lookup_insert_ne. Qed.

(** With a stored openness other than [0], the detector compares with it. *)
Lemma detectMouthMovement_nonzero_baseline history faceId previous current :
  history !! faceId = Some previous -> previous <> 0 ->
  ((detectMouthMovement history faceId current).2 = true
   <-> Rabs (current - previous) > 3 / 1000).
Proof.
  intros Hlook Hne. unfold detectMouthMovement. simpl.
  rewrite Hlook, number_or_truthy by assumption.
  apply Rgtb_true.
Qed.

(** Two calls in a row for one face, the first with an openness other than
    [0]: the second call tells whether the openness moved by more than the
    threshold, and a move by the threshold itself does not count. *)
Lemma detectMouthMovement_twice_nonzero history faceId v1 v2 :
  v1 <> 0 ->
  let history1 := (detectMouthMovement history faceId v1).1 in
  ((detectMouthMovement history1 faceId v2).2 = true
     <-> Rabs (v2 - v1) > 3 / 1000)
  /\ (Rabs (v2 - v1) = 3 / 1000 ->
      (detectMouthMovement history1 faceId v2).2 = false).
Proof.
  intros Hne history1.
  assert (Hlook : history1 !! faceId = Some v1)
    by apply detectMouthMovement_stores.
  split.
  - apply detectMouthMovement_nonzero_baseline; assumption.
  - intros Heq. unfold detectMouthMovement. simpl.
    rewrite Hlook, number_or_truthy by assumption.
    apply Rgtb_false. unfold MOUTH_MOVEMENT_THRESHOLD. lra.
Qed.

(** C2. A face without an entry in the openness history never counts as
    moving, whatever its openness, and the call stores this openness as
    the entry of the face. *)
Theorem detectMouthMovement_first_sighting
    (history : gmap nat R) (faceId : nat) (openness : R) :
  history !! faceId = None ->
  (detectMouthMovement history faceId openness).2 = false
  /\ (detectMouthMovement history faceId openness).1
     = <[faceId := openness]> history
  /\ (detectMouthMovement history faceId openness).1 !! faceId = Some openness.
Proof.
  intros Hnone. split; [|split].
  - unfold detectMouthMovement. simpl.
    rewrite Hnone, number_or_undefined.
    apply Rgtb_false. unfold MOUTH_MOVEMENT_THRESHOLD.
    replace (openness - openness) with 0 by ring. rewrite Rabs_R0. lra.
  - reflexivity.
  - apply detectMouthMovement_stores.
Qed.

Lemma detectMouthMovement_first_sighting_witness :
  (detectMouthMovement ∅ 0 1).2 = false
  /\ (detectMouthMovement ∅ 0 1).1 = <[0%nat := 1]> (∅ : gmap nat R)
  /\ (detectMouthMovement ∅ 0 1).1 !! 0%nat = Some 1.
Proof.
  apply (detectMouthMovement_first_sighting ∅ 0 1).
  apply lookup_empty.
Defined.

(** C3, at the openness [0]: after a call that stores the openness [0], a
    call with the openness [1/2] returns [false], although the openness
    moved by more than the threshold. The stored [0] is falsy, so that the
    current openness is taken in its place. *)
Theorem detectMouthMovement_zero_baseline :
  let history1 := (detectMouthMovement ∅ 0 0).1 in
  history1 !! 0%nat = Some 0
  /\ (detectMouthMovement history1 0 (1 / 2)).2 = false
  /\ Rabs (1 / 2 - 0) > MOUTH_MOVEMENT_THRESHOLD.
Proof.
  intros history1.
  assert (Hlook : history1 !! 0%nat = Some 0)
    by apply detectMouthMovement_stores.
  split; [exact Hlook|]. split.
  - unfold detectMouthMovement. simpl.
    rewrite Hlook, number_or_zero.
    apply Rgtb_false. unfold MOUTH_MOVEMENT_THRESHOLD.
    replace (1 / 2 - 1 / 2) with 0 by lra. rewrite Rabs_R0. lra.
  - unfold MOUTH_MOVEMENT_THRESHOLD.
    replace (1 / 2 - 0) with (1 / 2) by lra.
    rewrite Rabs_pos_eq; lra.
Qed.

(** ** Active speaker selector: proofs *)

Section ArraySort.
Context {A : Type} (cmp : A -> A -> R).

Lemma sort_insert_perm a l : Permutation (sort_insert cmp a l) (a :: l).
Proof.
  induction l as [|b l IH]; simpl; [reflexivity|].
  destruct (Rgtb (cmp a b) 0); [|reflexivity].
  rewrite IH. apply perm_swap.
Qed.

(** The sort returns the elements it was given. *)
Lemma array_sort_perm l : Permutation (array_sort cmp l) l.
Proof.
  induction l as [|a l IH]; simpl; [reflexivity|].
  rewrite sort_insert_perm. by constructor.
Qed.

Lemma array_sort_length l : length (array_sort cmp l) = length l.
Proof. apply Permutation_length, array_sort_perm. Qed.

(** A sorted array is empty only when the array was. *)
Lemma array_sort_nil l : array_sort cmp l = [] -> l = [].
Proof.
  intros Hnil. apply length_zero_iff_nil.
  rewrite <- array_sort_length, Hnil. reflexivity.
Qed.

(** The first element after an insertion. *)
Lemma head_sort_insert a l :
  head (sort_insert cmp a l) =
  match head l with
  | Some b => if Rgtb (cmp a b) 0 then Some b else Some a
  | None => Some a
  end.
Proof.
  destruct l as [|b l]; simpl; [reflexivity|].
  destruct (Rgtb (cmp a b) 0); reflexivity.
Qed.
End ArraySort.

Lemma isFirstLargest_bound face faces :
  isFirstLargest face faces ->
  Forall (fun other => other.(mouthOpenDistance) <= face.(mouthOpenDistance)) faces.
Proof.
  intros (before & after & -> & Hbefore & Hafter).
  apply Forall_app. split.
  - eapply Forall_impl; [exact Hbefore|]. simpl. intros other Hlt. lra.
  - constructor; [lra | exact Hafter].
Qed.

(** Sorting by mouth opening, widest first, puts in front the record with
    the largest opening, and the first of them among equals. *)
Lemma head_array_sort_byMouthOpenDistance faces :
  faces <> [] ->
  exists face,
    head (array_sort byMouthOpenDistance faces) = Some face
    /\ isFirstLargest face faces.
Proof.
  induction faces as [|a faces IH]; [congruence|]. intros _.
  simpl. rewrite head_sort_insert.
  destruct faces as [|b faces'].
  - simpl. exists a. split; [reflexivity|].
    exists [], []. repeat split; constructor.
  - destruct IH as (top & Htop & Hlargest); [discriminate|].
    rewrite Htop. unfold byMouthOpenDistance at 1.
    destruct (Rgtb (mouthOpenDistance top - mouthOpenDistance a) 0) eqn:Hcmp.
    + apply Rgtb_true in Hcmp. exists top. split; [reflexivity|].
      destruct Hlargest as (before & after & Heq & Hbefore & Hafter).
      exists (a :: before), after. rewrite Heq. repeat split.
      * constructor; [lra | exact Hbefore].
      * exact Hafter.
    + apply Rgtb_false in Hcmp. exists a. split; [reflexivity|].
      exists [], (b :: faces'). repeat split; [constructor|].
      eapply Forall_impl; [exact (isFirstLargest_bound _ _ Hlargest)|].
      simpl. intros other Hle. lra.
Qed.

(** The sorted records come by mouth opening, widest first. *)
Lemma array_sort_byMouthOpenDistance_sorted faces :
  StronglySorted
    (fun a b => b.(mouthOpenDistance) <= a.(mouthOpenDistance))
    (array_sort byMouthOpenDistance faces).
Proof.
  induction faces as [|a faces IH]; simpl; [constructor|].
  induction IH as [|b sorted Hsorted IHsorted Hb]; simpl; [repeat constructor|].
  unfold byMouthOpenDistance at 1.
  destruct (Rgtb (mouthOpenDistance b - mouthOpenDistance a) 0) eqn:Hcmp.
  - apply Rgtb_true in Hcmp. constructor; [exact IHsorted|].
    rewrite (sort_insert_perm byMouthOpenDistance a sorted).
    constructor; [lra | exact Hb].
  - apply Rgtb_false in Hcmp. constructor; [by constructor|].
    constructor; [lra|].
    eapply Forall_impl; [exact Hb|]. simpl. intros c Hc. lra.
Qed.

(** A record made at the current time passes the filter. *)
Lemma isMovingFace_current currentTime face :
  face.(lastUpdateTime) = currentTime -> isMovingFace currentTime face = true.
Proof.
  intros <-. unfold isMovingFace, MOUTH_MOVEMENT_TIMEOUT.
  rewrite Z.sub_diag. apply orb_true_r.
Qed.

Lemma filter_all {A} (p : A -> bool) l :
  Forall (fun a => p a = true) l -> List.filter p l = l.
Proof.
  induction 1 as [|a l Ha _ IH]; simpl; [reflexivity|].
  rewrite Ha, IH. reflexivity.
Qed.

(** When the filter keeps a record, the selector returns the record with
    the largest opening among the kept ones. *)
Lemma determineSpeakingFace_moving currentTime activeFaceId updatedFaces :
  List.filter (isMovingFace currentTime) updatedFaces <> [] ->
  exists face,
    isFirstLargest face (List.filter (isMovingFace currentTime) updatedFaces)
    /\ determineSpeakingFace currentTime activeFaceId updatedFaces = Some face.(id).
Proof.
  intros Hne. unfold determineSpeakingFace.
  destruct (head_array_sort_byMouthOpenDistance _ Hne) as (face & Hhead & Hlargest).
  exists face. split; [exact Hlargest|].
  destruct (List.filter _ updatedFaces) as [|m ms] eqn:Hfilter; [congruence|].
  simpl length. simpl Nat.eqb. cbv iota. rewrite Hhead. reflexivity.
Qed.

(** C4. When every record of a non-empty list was made at the current time,
    the timeout clause keeps them all, the filtered list is the whole list,
    and the selector returns the id of the record with the largest mouth
    opening, the first of them in frame order among equals. *)
Theorem determineSpeakingFace_current_pass
    (currentTime : Z) (activeFaceId : option nat) (updatedFaces : list FaceData) :
  updatedFaces <> [] ->
  Forall (fun face => face.(lastUpdateTime) = currentTime) updatedFaces ->
  Forall (fun face =>
    (currentTime - face.(lastUpdateTime) <? MOUTH_MOVEMENT_TIMEOUT)%Z = true)
    updatedFaces
  /\ List.filter (isMovingFace currentTime) updatedFaces = updatedFaces
  /\ exists face,
       isFirstLargest face updatedFaces
       /\ determineSpeakingFace currentTime activeFaceId updatedFaces
          = Some face.(id).
Proof.
  intros Hne Hnow.
  assert (Hall : List.filter (isMovingFace currentTime) updatedFaces = updatedFaces).
  { apply filter_all. eapply Forall_impl; [exact Hnow|].
    intros face. apply isMovingFace_current. }
  split; [|split; [exact Hall|]].
  - eapply Forall_impl; [exact Hnow|]. simpl. intros face <-.
    rewrite Z.sub_diag. reflexivity.
  - destruct (determineSpeakingFace_moving currentTime activeFaceId updatedFaces)
      as (face & Hlargest & Hres); [congruence|].
    rewrite Hall in Hlargest. eauto.
Qed.

(** Two records of one pass, the second with the wider mouth. *)
Lemma determineSpeakingFace_current_pass_witness :
  let faces :=
    [mkFaceData 0 [] false (1 / 100) 1000; mkFaceData 1 [] true (5 / 100) 1000] in
  Forall (fun face =>
    (1000 - face.(lastUpdateTime) <? MOUTH_MOVEMENT_TIMEOUT)%Z = true) faces
  /\ List.filter (isMovingFace 1000) faces = faces
  /\ exists face,
       isFirstLargest face faces
       /\ determineSpeakingFace 1000 (Some 0%nat) faces = Some face.(id).
Proof.
  intros faces.
  apply (determineSpeakingFace_current_pass 1000 (Some 0%nat) faces).
  - discriminate.
  - repeat constructor.
Defined.

(** C5. Without any record, the selector keeps the previous active id: it
    returns that id when there is one, and none when there is none. *)
Theorem determineSpeakingFace_no_records (currentTime : Z) (active : nat) :
  determineSpeakingFace currentTime (Some active) [] = Some active
  /\ determineSpeakingFace currentTime None [] = None.
Proof. split; reflexivity. Qed.

(** More generally, the previous active id is kept whenever the filter
    keeps no record. *)
Lemma determineSpeakingFace_keeps_active currentTime active updatedFaces :
  List.filter (isMovingFace currentTime) updatedFaces = [] ->
  determineSpeakingFace currentTime (Some active) updatedFaces = Some active.
Proof. intros Hnil. unfold determineSpeakingFace. rewrite Hnil. reflexivity. Qed.

(** C6, as stated, fails: of two records of the current pass, neither
    moving, the selector returns the second when its mouth is wider. *)
Lemma determineSpeakingFace_none_moving_counterexample :
  determineSpeakingFace 1000 None
    [mkFaceData 0 [] false (1 / 100) 1000; mkFaceData 1 [] false (5 / 100) 1000]
  = Some 1%nat
  /\ determineSpeakingFace 1000 None
    [mkFaceData 0 [] false (1 / 100) 1000; mkFaceData 1 [] false (5 / 100) 1000]
  <> Some 0%nat.
Proof.
  assert (Hres : determineSpeakingFace 1000 None
    [mkFaceData 0 [] false (1 / 100) 1000; mkFaceData 1 [] false (5 / 100) 1000]
    = Some 1%nat).
  { unfold determineSpeakingFace. simpl. unfold byMouthOpenDistance. simpl.
    replace (Rgtb (5 / 100 - 1 / 100) 0) with true; [reflexivity|].
    symmetry. apply Rgtb_true. lra. }
  split; [exact Hres|]. rewrite Hres. discriminate.
Qed.

(** C6, amended. For the records with the ids 0 and 1, neither moving, and
    no previous active id, the selector returns 0 exactly when the second
    record is as old as the timeout or older, or the first record is younger
    than the timeout and its mouth is at least as wide as the second's. *)
Theorem determineSpeakingFace_none_moving
    (currentTime : Z) (lms0 lms1 : list FaceLandmark) (d0 d1 : R) (t0 t1 : Z) :
  determineSpeakingFace currentTime None
    [mkFaceData 0 lms0 false d0 t0; mkFaceData 1 lms1 false d1 t1] = Some 0%nat
  <-> (currentTime - t1 >= 1500)%Z
      \/ ((currentTime - t0 < 1500)%Z /\ d1 <= d0).
Proof.
  unfold determineSpeakingFace, isMovingFace, MOUTH_MOVEMENT_TIMEOUT. simpl.
  destruct (Z.ltb_spec (currentTime - t0) 1500) as [H0|H0];
    destruct (Z.ltb_spec (currentTime - t1) 1500) as [H1|H1]; simpl.
  - unfold byMouthOpenDistance. simpl.
    destruct (Rgtb (d1 - d0) 0) eqn:Hcmp; simpl.
    + apply Rgtb_true in Hcmp. split; [discriminate|].
      intros [Hold|[_ Hle]]; [lia | lra].
    + apply Rgtb_false in Hcmp. split; [|reflexivity].
      intros _. right. split; [lia | lra].
  - split; [|reflexivity]. intros _. left. lia.
  - split; [discriminate|]. intros [Hold|[Hyoung _]]; lia.
  - split; [|reflexivity]. intros _. left. lia.
Qed.

(** ** The per-frame callback: proofs *)

Lemma silent_ret {A} (a : A) : silent (ret a).
Proof. intros w. reflexivity. Qed.

Lemma silent_throw {A} e : silent (@throw A e).
Proof. intros w. reflexivity. Qed.

Lemma silent_call c : silent (call c).
Proof. intros w. reflexivity. Qed.

Lemma silent_bind {A B} (m : Js A) (k : A -> Js B) :
  silent m -> (forall a, silent (k a)) -> silent (bind m k).
Proof.
  intros Hm Hk w. unfold bind.
  specialize (Hm w). destruct (m w) as [[a|e] w']; simpl in *.
  - rewrite Hk. exact Hm.
  - exact Hm.
Qed.

Lemma silent_when b m : silent m -> silent (when b m).
Proof. intros Hm. destruct b; [exact Hm | apply silent_ret]. Qed.

Lemma silent_forEachFrom {A} index (l : list A) f :
  (forall item i, silent (f item i)) -> silent (forEachFrom index l f).
Proof.
  intros Hf. revert index.
  induction l as [|item l IH]; intros index; simpl.
  - apply silent_ret.
  - apply silent_bind; [apply Hf | intros _; apply IH].
Qed.

Lemma silent_prop {A B} (field : A -> B) o : silent (prop field o).
Proof. destruct o; [apply silent_ret | apply silent_throw]. Qed.

Create HintDb silent.

#[local] Hint Resolve silent_ret silent_throw silent_call silent_when
  silent_prop : silent.

Ltac silent_tac :=
  repeat first
    [ apply silent_bind; [|intros ?]
    | apply silent_forEachFrom; intros ? ?
    | apply silent_when
    | solve [auto with silent] ].

Lemma silent_drawSphere cx cy radius color : silent (drawSphere cx cy radius color).
Proof. unfold drawSphere. silent_tac. Qed.

Lemma silent_drawMesh lms : silent (drawMesh lms).
Proof. unfold drawMesh, forEach. silent_tac. Qed.

Lemma silent_drawForehead forehead cw ch active :
  silent (drawForehead forehead cw ch active).
Proof. unfold drawForehead. silent_tac. Qed.

Lemma silent_drawCaption measureText forehead cw ch caption active :
  silent (drawCaption measureText forehead cw ch caption active).
Proof. unfold drawCaption, forEach. silent_tac. Qed.

(** The renderer draws and tells nothing. *)
Lemma silent_FaceMeshRenderer measureText lms cw ch caption active :
  silent (FaceMeshRenderer measureText lms cw ch caption active).
Proof.
  unfold FaceMeshRenderer, drawMesh, drawForehead, drawCaption, forEach.
  silent_tac.
Qed.

Lemma notes_silent {A} (m : Js A) : silent m -> notes m [].
Proof. intros Hm w. rewrite Hm, app_nil_r. reflexivity. Qed.

Lemma notes_quiet_bind {A B} (m : Js A) (k : A -> Js B) :
  notes m [] -> (forall a, notes (k a) []) -> notes (bind m k) [].
Proof.
  intros Hm Hk w. unfold bind.
  specialize (Hm w). destruct (m w) as [[a|e] w']; simpl in *.
  - rewrite Hk, Hm, !app_nil_r. reflexivity.
  - exact Hm.
Qed.

Lemma notes_call_then {B} c (k : unit -> Js B) ns :
  notes (k tt) ns -> notes (bind (call c) k) ns.
Proof. intros Hk w. unfold bind, call. simpl. rewrite Hk. reflexivity. Qed.

Lemma notifications_app es1 es2 :
  notifications (es1 ++ es2) = notifications es1 ++ notifications es2.
Proof. unfold notifications. apply omap_app. Qed.

Lemma notes_emit_then {B} e (k : unit -> Js B) ns :
  notes (k tt) ns -> notes (bind (emit e) k) (notifications [e] ++ ns).
Proof.
  intros Hk w. unfold bind, emit. simpl.
  rewrite Hk. simpl. rewrite notifications_app, app_assoc. reflexivity.
Qed.

(** What a pass tells the caption router: the selected id when it is not
    the active id, and nothing otherwise. *)
Lemma processFrame_notes measureText w h clock history activeFaceId
    latestCaption multiFaceLandmarks :
  let speaking := speakingFaceOf clock history activeFaceId multiFaceLandmarks in
  notes (processFrame measureText w h clock history activeFaceId latestCaption
           multiFaceLandmarks).2
    (if bool_decide (speaking = activeFaceId) then [] else [speaking]).
Proof.
  unfold speakingFaceOf, processFrame.
  destruct (updateFaces clock history 0 (default [] multiFaceLandmarks))
    as [history' updatedFaces]. simpl.
  set (speaking := determineSpeakingFace _ activeFaceId updatedFaces).
  do 4 apply notes_call_then.
  assert (Hrest : notes
    (forEach (default [] multiFaceLandmarks)
       (fun lms index =>
          FaceMeshRenderer measureText lms w h latestCaption
            (Some (bool_decide (Some index = speaking))));;
     emit (SetFaces updatedFaces);; call Restore) []).
  { apply notes_quiet_bind.
    - apply notes_silent. unfold forEach. apply silent_forEachFrom.
      intros lms index. apply silent_FaceMeshRenderer.
    - intros _. apply (notes_emit_then (SetFaces updatedFaces) _ []).
      apply notes_silent, silent_call. }
  destruct (bool_decide (speaking = activeFaceId)); simpl.
  - apply notes_quiet_bind; [apply notes_silent, silent_ret | intros _; exact Hrest].
  - apply (notes_emit_then (OnActiveFaceChange speaking) _ []). exact Hrest.
Qed.

Lemma onResults_notes measureText canvas video clock history activeFaceId
    latestCaption multiFaceLandmarks :
  canvas.(context2d) = true ->
  let speaking := speakingFaceOf clock history activeFaceId multiFaceLandmarks in
  notes (onResults measureText (Some canvas) video clock history activeFaceId
           latestCaption multiFaceLandmarks).2
    (if bool_decide (speaking = activeFaceId) then [] else [speaking]).
Proof.
  intros Hctx. unfold onResults. rewrite Hctx. simpl.
  destruct (match video with Some size => size | None => _ end) as [w h].
  apply processFrame_notes.
Qed.

(** When the collaborator takes each id it is told as the new active id,
    the active id after a pass is the id the selector returned in it: the
    id carried over to the next pass is the output of this one. *)
Lemma onResults_carries_selection measureText canvas video clock history
    activeFaceId latestCaption multiFaceLandmarks w :
  canvas.(context2d) = true ->
  notifications w.(effects) = [] ->
  let speaking := speakingFaceOf clock history activeFaceId multiFaceLandmarks in
  let after :=
    ((onResults measureText (Some canvas) video clock history activeFaceId
        latestCaption multiFaceLandmarks).2 w).2 in
  List.last (notifications after.(effects)) activeFaceId = speaking.
Proof.
  intros Hctx Hnone speaking after.
  pose proof (onResults_notes measureText canvas video clock history
                activeFaceId latestCaption multiFaceLandmarks Hctx w) as Hnotes.
  fold speaking in Hnotes. fold after in Hnotes.
  rewrite Hnotes, Hnone. simpl.
  destruct (bool_decide_reflect (speaking = activeFaceId)) as [Heq|Hne];
    [symmetry; exact Heq | reflexivity].
Qed.

(** C7. In a pass that reaches the selector, the notification of a changed
    active face is sent if and only if the id the selector returns is not
    the active id carried over from before the pass; it then carries the
    selected id, and when the two ids are equal nothing is sent. *)
Theorem onResults_activeFaceChanged
    (measureText : string -> string -> R) (canvas : CanvasElement)
    (video : option (R * R)) (clock : nat -> Z) (history : gmap nat R)
    (activeFaceId : option nat) (latestCaption : Caption)
    (multiFaceLandmarks : option (list (list FaceLandmark))) :
  canvas.(context2d) = true ->
  let speaking := speakingFaceOf clock history activeFaceId multiFaceLandmarks in
  let after :=
    ((onResults measureText (Some canvas) video clock history activeFaceId
        latestCaption multiFaceLandmarks).2 emptyWorld).2 in
  (In (OnActiveFaceChange speaking) after.(effects) <-> speaking <> activeFaceId)
  /\ (speaking <> activeFaceId -> notifications after.(effects) = [speaking])
  /\ (speaking = activeFaceId -> notifications after.(effects) = []).
Proof.
  intros Hctx speaking after.
  pose proof (onResults_notes measureText canvas video clock history
                activeFaceId latestCaption multiFaceLandmarks Hctx emptyWorld)
    as Hnotes.
  change (notifications after.(effects)
          = if bool_decide (speaking = activeFaceId) then [] else [speaking])
    in Hnotes.
  assert (Hin : forall faceId,
            In (OnActiveFaceChange faceId) after.(effects)
            <-> In faceId (notifications after.(effects))).
  { intros faceId. unfold notifications.
    rewrite <- !list_elem_of_In, list_elem_of_omap. split.
    - intros Hin. exists (OnActiveFaceChange faceId). auto.
    - intros [[other|faces] [Hin Heq]]; [|discriminate].
      injection Heq as ->. exact Hin. }
  rewrite Hin, Hnotes.
  destruct (bool_decide_reflect (speaking = activeFaceId)) as [Heq|Hne].
  - repeat split; simpl; try tauto; congruence.
  - repeat split; simpl; try tauto; congruence.
Qed.

(** A pass on one face, seen for the first time, with no active face. *)
Lemma onResults_activeFaceChanged_witness :
  let canvas := mkCanvas 640 480 true in
  let speaking := speakingFaceOf (fun _ => 0%Z) ∅ None (Some [[]]) in
  let after :=
    ((onResults (fun _ _ => 0) (Some canvas) None (fun _ => 0%Z) ∅ None
        (mkCaption "" 0) (Some [[]])).2 emptyWorld).2 in
  (In (OnActiveFaceChange speaking) after.(effects) <-> speaking <> None)
  /\ (speaking <> None -> notifications after.(effects) = [speaking])
  /\ (speaking = None -> notifications after.(effects) = []).
Proof.
  intros canvas.
  apply (onResults_activeFaceChanged (fun _ _ => 0) canvas None (fun _ => 0%Z)
           ∅ None (mkCaption "" 0) (Some [[]])).
  reflexivity.
Defined.

(** Without a canvas, or without a drawing context, the callback returns at
    once: the history is kept, nothing is drawn and nothing is told. *)
Lemma onResults_no_canvas measureText canvas video clock history activeFaceId
    latestCaption multiFaceLandmarks w :
  match canvas with Some c => c.(context2d) = false | None => True end ->
  let '(history', run) :=
    onResults measureText canvas video clock history activeFaceId latestCaption
      multiFaceLandmarks in
  history' = history /\ run w = (Normal tt, w).
Proof.
  destruct canvas as [c|]; simpl.
  - intros ->. simpl. split; reflexivity.
  - intros _. split; reflexivity.
Qed.

(** ** Word wrap: splitting and joining *)

Lemma append_cons c s1 s2 : String c s1 +:+ s2 = String c (s1 +:+ s2).
Proof. reflexivity. Qed.

Lemma append_assoc s1 s2 s3 : (s1 +:+ s2) +:+ s3 = s1 +:+ s2 +:+ s3.
Proof.
  induction s1 as [|c s1 IH]; [reflexivity|].
  rewrite !append_cons, IH. reflexivity.
Qed.

Lemma split_not_nil text : split text <> [].
Proof.
  destruct text as [|c rest]; simpl; [discriminate|].
  destruct (Ascii.eqb c space); [discriminate|].
  destruct (split rest); discriminate.
Qed.

Lemma join_cons word words :
  words <> [] -> join (word :: words) = word +:+ " " +:+ join words.
Proof. destruct words; [congruence | reflexivity]. Qed.

Lemma join_singleton word : join [word] = word.
Proof. reflexivity. Qed.

Lemma join_snoc words word :
  words <> [] -> join (words ++ [word]) = join words +:+ " " +:+ word.
Proof.
  induction words as [|w words IH]; [congruence|]. intros _.
  destruct words as [|w' words].
  - reflexivity.
  - change ((w :: w' :: words) ++ [word]) with (w :: ((w' :: words) ++ [word])).
    rewrite join_cons by (simpl; discriminate).
    rewrite IH by discriminate.
    rewrite (join_cons w (w' :: words)) by discriminate.
    rewrite !append_assoc. reflexivity.
Qed.

Lemma join_app words1 words2 :
  words1 <> [] -> words2 <> [] ->
  join (words1 ++ words2) = join words1 +:+ " " +:+ join words2.
Proof.
  intros H1 H2. revert words1 H1.
  induction words2 as [|w words2 IH] using rev_ind; [congruence|].
  intros words1 H1. destruct words2 as [|w2 words2].
  - simpl. apply join_snoc, H1.
  - rewrite app_assoc, join_snoc.
    + rewrite IH by (discriminate || assumption).
      rewrite (join_snoc (w2 :: words2)) by discriminate.
      rewrite !append_assoc. reflexivity.
    + destruct words1; [congruence | discriminate].
Qed.

(** Joining the pieces of a text gives the text back. *)
Lemma join_split text : join (split text) = text.
Proof.
  induction text as [|c rest IH]; simpl; [reflexivity|].
  destruct (Ascii.eqb_spec c space) as [->|Hc].
  - rewrite join_cons by apply split_not_nil. rewrite IH. reflexivity.
  - destruct (split rest) as [|word words] eqn:Hsplit.
    + destruct (split_not_nil _ Hsplit).
    + rewrite <- IH. destruct words as [|word' words]; reflexivity.
Qed.

(** No piece of a text contains a space. *)
Lemma split_no_space text : Forall (fun word => containsSpace word = false) (split text).
Proof.
  induction text as [|c rest IH]; simpl.
  - repeat constructor.
  - destruct (Ascii.eqb c space) eqn:Hc.
    + constructor; [reflexivity | exact IH].
    + destruct (split rest) as [|word words].
      * constructor; [|constructor]. simpl. rewrite Hc. reflexivity.
      * inversion IH as [|? ? Hword Hwords]; subst.
        constructor; [|exact Hwords]. simpl. rewrite Hc. exact Hword.
Qed.

(** A line of more than one word contains a space. *)
Lemma split_several_space line :
  (1 < length (split line))%nat -> containsSpace line = true.
Proof.
  induction line as [|c rest IH]; simpl; [lia|].
  destruct (Ascii.eqb c space); [reflexivity|]. simpl.
  destruct (split rest) as [|word words]; simpl in *; [lia | exact IH].
Qed.

Lemma join_nonempty words :
  words <> [] -> Forall (fun word => word <> EmptyString) words ->
  join words <> EmptyString.
Proof.
  destruct words as [|w words]; [congruence|]. intros _ Hall.
  inversion Hall as [|? ? Hw _]; subst.
  destruct words as [|w' words]; [exact Hw|].
  rewrite join_cons by discriminate.
  destruct w; [congruence | rewrite append_cons; discriminate].
Qed.

(** Joining the joined groups is joining all their words. *)
Lemma join_concat (groups : list (list string)) :
  Forall (fun group => group <> []) groups ->
  join (map join groups) = join (concat groups).
Proof.
  induction 1 as [|group groups Hgroup Hall IH]; [reflexivity|].
  destruct groups as [|group' groups].
  - simpl. rewrite app_nil_r. reflexivity.
  - change (map join (group :: group' :: groups))
      with (join group :: map join (group' :: groups)).
    rewrite join_cons by discriminate. rewrite IH.
    change (concat (group :: group' :: groups))
      with (group ++ concat (group' :: groups)).
    rewrite join_app; [reflexivity | exact Hgroup |].
    inversion Hall as [|? ? Hgroup' _]; subst.
    simpl. destruct group'; [congruence | discriminate].
Qed.

(** ** Word wrap: the loop *)

Lemma truthy_string_true s : truthy_string s = true <-> s <> EmptyString.
Proof.
  unfold truthy_string. destruct (String.eqb_spec s ""); simpl; split;
    congruence.
Qed.

Lemma truthy_string_false s : truthy_string s = false <-> s = EmptyString.
Proof.
  unfold truthy_string. destruct (String.eqb_spec s ""); simpl; split;
    congruence.
Qed.

Lemma testLineOf_empty word : testLineOf "" word = word.
Proof. reflexivity. Qed.

Lemma testLineOf_nonempty currentLine word :
  currentLine <> EmptyString ->
  testLineOf currentLine word = currentLine +:+ " " +:+ word.
Proof.
  intros Hne. unfold testLineOf.
  apply truthy_string_true in Hne. rewrite Hne. reflexivity.
Qed.

(** A text without a space is its only piece. *)
Lemma split_one_word word : containsSpace word = false -> split word = [word].
Proof.
  induction word as [|c rest IH]; simpl; [reflexivity|].
  destruct (Ascii.eqb c space); simpl; [discriminate|].
  intros Hrest. rewrite IH by exact Hrest. reflexivity.
Qed.

Section WrapText.
Variable measure : string -> R.
Variable maxWidth : R.

(** The two ways of an iteration: a new line is begun, or the word is
    added to the current line. *)
Lemma wrap_step_cases lines currentLine word :
  (overflows measure maxWidth currentLine word
   /\ wrap_step measure maxWidth (lines, currentLine) word
      = (lines ++ [currentLine], word))
  \/ (~ overflows measure maxWidth currentLine word
      /\ wrap_step measure maxWidth (lines, currentLine) word
         = (lines, testLineOf currentLine word)).
Proof.
  unfold wrap_step, overflows.
  destruct (Rgtb (measure (testLineOf currentLine word)) maxWidth) eqn:Hgt;
    destruct (String.eqb_spec currentLine "") as [Hempty|Hempty]; simpl.
  - right. split; [tauto | reflexivity].
  - left. apply Rgtb_true in Hgt. auto.
  - right. split; [tauto | reflexivity].
  - right. apply Rgtb_false in Hgt. split; [|reflexivity].
    intros [Hover _]. lra.
Qed.

Lemma wrap_loop_snoc words word :
  wrap_loop measure maxWidth (words ++ [word])
  = wrap_step measure maxWidth (wrap_loop measure maxWidth words) word.
Proof. unfold wrap_loop. rewrite fold_left_app. reflexivity. Qed.

(** Every line with a space in it fits, the finished ones and the
    current one. *)
Lemma wrap_loop_fits words :
  Forall (fun word => containsSpace word = false) words ->
  Forall (fun line => containsSpace line = true -> measure line <= maxWidth)
    (wrap_loop measure maxWidth words).1
  /\ (containsSpace (wrap_loop measure maxWidth words).2 = true ->
      measure (wrap_loop measure maxWidth words).2 <= maxWidth).
Proof.
  induction words as [|word words IH] using rev_ind; intros Hwords.
  - simpl. split; [constructor | discriminate].
  - apply Forall_app in Hwords as [Hwords Hword].
    inversion Hword as [|? ? Hnospace _]; subst.
    destruct (IH Hwords) as [Hlines Hcur].
    rewrite wrap_loop_snoc.
    destruct (wrap_loop measure maxWidth words) as [lines currentLine].
    simpl in Hlines, Hcur.
    destruct (wrap_step_cases lines currentLine word)
      as [[Hover ->]|[Hnot ->]]; simpl.
    + split; [|congruence].
      apply Forall_app. split; [exact Hlines|]. constructor; [exact Hcur | constructor].
    + split; [exact Hlines|].
      destruct (String.eqb_spec currentLine "") as [->|Hne].
      * rewrite testLineOf_empty. congruence.
      * intros _. unfold overflows in Hnot.
        destruct (Rle_or_lt (measure (testLineOf currentLine word)) maxWidth)
          as [Hle|Hlt]; [exact Hle|].
        exfalso. apply Hnot. split; [lra | exact Hne].
Qed.

(** Every line is a run of consecutive words, and the current line is a
    run that ends with the last word. *)
Lemma wrap_loop_runs words :
  Forall (fun line => isRun line words) (wrap_loop measure maxWidth words).1
  /\ ((wrap_loop measure maxWidth words).2 = EmptyString
      \/ exists before run,
           words = before ++ run /\ run <> []
           /\ (wrap_loop measure maxWidth words).2 = join run).
Proof.
  induction words as [|word words IH] using rev_ind.
  - simpl. split; [constructor | left; reflexivity].
  - destruct IH as [Hlines Hcur]. rewrite wrap_loop_snoc.
    destruct (wrap_loop measure maxWidth words) as [lines currentLine].
    simpl in Hlines, Hcur.
    assert (Hlines' : Forall (fun line => isRun line (words ++ [word])) lines).
    { eapply Forall_impl; [exact Hlines|]. simpl.
      intros line (before & run & after & -> & Hrun & ->).
      exists before, run, (after ++ [word]).
      rewrite <- !app_assoc. auto. }
    assert (Hword : exists before run,
               words ++ [word] = before ++ run /\ run <> [] /\ word = join run).
    { exists words, [word]. split; [reflexivity|]. split; [discriminate | reflexivity]. }
    destruct (wrap_step_cases lines currentLine word)
      as [[[_ Hne] ->]|[_ ->]]; simpl.
    + split; [|right; exact Hword].
      apply Forall_app. split; [exact Hlines'|]. constructor; [|constructor].
      destruct Hcur as [Hempty|(before & run & -> & Hrun & ->)]; [congruence|].
      exists before, run, [word]. rewrite <- app_assoc. auto.
    + split; [exact Hlines'|]. right.
      destruct (String.eqb_spec currentLine "") as [->|Hne].
      * rewrite testLineOf_empty. exact Hword.
      * rewrite testLineOf_nonempty by exact Hne.
        destruct Hcur as [Hempty|(before & run & -> & Hrun & ->)]; [congruence|].
        exists before, (run ++ [word]). rewrite <- app_assoc.
        split; [reflexivity|]. split.
        -- destruct run; discriminate.
        -- symmetry. apply join_snoc, Hrun.
Qed.

(** When no word is empty, the lines are the words cut into groups. *)
Lemma wrap_loop_groups words :
  Forall (fun word => word <> EmptyString) words ->
  exists groups,
    (wrap_loop measure maxWidth words).1 = map join groups
    /\ Forall (fun group => group <> []) groups
    /\ ((words = [] /\ groups = []
         /\ (wrap_loop measure maxWidth words).2 = EmptyString)
        \/ exists run,
             run <> [] /\ (wrap_loop measure maxWidth words).2 = join run
             /\ words = concat groups ++ run).
Proof.
  induction words as [|word words IH] using rev_ind; intros Hwords.
  - exists []. simpl. split; [reflexivity|]. split; [constructor|]. left. auto.
  - apply Forall_app in Hwords as [Hwords Hword].
    inversion Hword as [|? ? Hne _]; subst.
    destruct (IH Hwords) as (groups & Hlines & Hgroups & Hcur).
    rewrite wrap_loop_snoc.
    destruct (wrap_loop measure maxWidth words) as [lines currentLine].
    simpl in Hlines, Hcur. subst lines.
    destruct Hcur as [(-> & -> & ->)|(run & Hrun & -> & ->)].
    + destruct (wrap_step_cases (map join []) "" word)
        as [[[_ Habs] _]|[_ ->]]; [congruence|].
      exists []. simpl. split; [reflexivity|]. split; [constructor|].
      right. exists [word]. split; [discriminate|]. split; reflexivity.
    + assert (Hjoin : join run <> EmptyString).
      { apply join_nonempty; [exact Hrun|].
        apply Forall_app in Hwords as [_ Hall]. exact Hall. }
      destruct (wrap_step_cases (map join groups) (join run) word)
        as [[_ ->]|[_ ->]]; simpl.
      * exists (groups ++ [run]). rewrite map_app. split; [reflexivity|].
        split; [apply Forall_app; split; [exact Hgroups | by constructor]|].
        right. exists [word]. split; [discriminate|]. split; [reflexivity|].
        rewrite concat_app. simpl. rewrite app_nil_r. reflexivity.
      * exists groups. split; [reflexivity|]. split; [exact Hgroups|].
        right. exists (run ++ [word]). split; [destruct run; discriminate|].
        split; [|by rewrite app_assoc].
        rewrite testLineOf_nonempty by exact Hjoin.
        symmetry. apply join_snoc, Hrun.
Qed.

(** The lines of a text are the finished lines and, unless it is empty,
    the current line. *)
Lemma wrapText_unfold text :
  wrapText measure text maxWidth =
  (wrap_loop measure maxWidth (split text)).1
  ++ (if truthy_string (wrap_loop measure maxWidth (split text)).2
      then [(wrap_loop measure maxWidth (split text)).2] else []).
Proof.
  unfold wrapText.
  destruct (wrap_loop measure maxWidth (split text)) as [lines currentLine].
  simpl. destruct (truthy_string currentLine); [reflexivity|].
  rewrite app_nil_r. reflexivity.
Qed.

Lemma wrapText_fits text line :
  In line (wrapText measure text maxWidth) ->
  (1 < length (split line))%nat -> measure line <= maxWidth.
Proof.
  rewrite wrapText_unfold. intros Hin Hseveral.
  apply split_several_space in Hseveral.
  destruct (wrap_loop_fits (split text) (split_no_space text)) as [Hlines Hcur].
  apply in_app_or in Hin as [Hin|Hin].
  - rewrite List.Forall_forall in Hlines. apply (Hlines line Hin Hseveral).
  - destruct (truthy_string _); [|destruct Hin].
    destruct Hin as [<-|[]]. apply Hcur, Hseveral.
Qed.

Lemma wrapText_runs text line :
  In line (wrapText measure text maxWidth) -> isRun line (split text).
Proof.
  rewrite wrapText_unfold. intros Hin.
  destruct (wrap_loop_runs (split text)) as [Hlines Hcur].
  apply in_app_or in Hin as [Hin|Hin].
  - rewrite List.Forall_forall in Hlines. apply (Hlines line Hin).
  - destruct (truthy_string _) eqn:Htruthy; [|destruct Hin].
    destruct Hin as [<-|[]]. apply truthy_string_true in Htruthy.
    destruct Hcur as [Hempty|(before & run & Hwords & Hrun & Hline)];
      [congruence|].
    exists before, run, []. rewrite app_nil_r. auto.
Qed.

Lemma wrapText_groups text :
  Forall (fun word => word <> EmptyString) (split text) ->
  exists groups,
    wrapText measure text maxWidth = map join groups
    /\ concat groups = split text
    /\ Forall (fun group => group <> []) groups.
Proof.
  intros Hwords. rewrite wrapText_unfold.
  destruct (wrap_loop_groups (split text) Hwords)
    as (groups & Hlines & Hgroups & Hcur).
  destruct Hcur as [(Hnil & _)|(run & Hrun & Hcur & Hsplit)].
  - destruct (split_not_nil _ Hnil).
  - assert (Hjoin : join run <> EmptyString).
    { apply join_nonempty; [exact Hrun|].
      rewrite Hsplit in Hwords. apply Forall_app in Hwords as [_ Hall].
      exact Hall. }
    rewrite Hlines, Hcur.
    apply truthy_string_true in Hjoin. rewrite Hjoin.
    exists (groups ++ [run]). rewrite map_app, concat_app. simpl.
    rewrite app_nil_r. split; [reflexivity|]. split; [by rewrite Hsplit|].
    apply Forall_app. split; [exact Hgroups | by constructor].
Qed.

(** The lines of a text whose words are not empty, joined by spaces, are
    the text. *)
Lemma wrapText_join text :
  Forall (fun word => word <> EmptyString) (split text) ->
  join (wrapText measure text maxWidth) = text.
Proof.
  intros Hwords.
  destruct (wrapText_groups text Hwords) as (groups & -> & Hconcat & Hgroups).
  rewrite join_concat by exact Hgroups.
  rewrite Hconcat. apply join_split.
Qed.

(** The empty text has no line. *)
Lemma wrapText_empty : wrapText measure "" maxWidth = [].
Proof.
  rewrite wrapText_unfold.
  change (wrap_loop measure maxWidth (split ""))
    with (wrap_step measure maxWidth ([], EmptyString) "").
  destruct (wrap_step_cases [] "" "") as [[[_ Habs] _]|[_ Hstep]];
    [congruence|].
  rewrite Hstep. reflexivity.
Qed.

(** A single word is its own line, however wide it is. *)
Lemma wrapText_one_word word :
  containsSpace word = false -> word <> EmptyString ->
  wrapText measure word maxWidth = [word].
Proof.
  intros Hnospace Hne. rewrite wrapText_unfold, split_one_word by exact Hnospace.
  change (wrap_loop measure maxWidth [word])
    with (wrap_step measure maxWidth ([], EmptyString) word).
  destruct (wrap_step_cases [] "" word) as [[[_ Habs] _]|[_ Hstep]];
    [congruence|].
  rewrite Hstep, testLineOf_empty. simpl.
  apply truthy_string_true in Hne. rewrite Hne. reflexivity.
Qed.

(** The state of the loop after one more word. *)
Lemma wrap_loop_break done word :
  let before := wrap_loop measure maxWidth done in
  let after := wrap_loop measure maxWidth (done ++ [word]) in
  (overflows measure maxWidth before.2 word ->
   after = (before.1 ++ [before.2], word))
  /\ (~ overflows measure maxWidth before.2 word ->
      after = (before.1, testLineOf before.2 word)).
Proof.
  intros before after. subst after. rewrite wrap_loop_snoc. subst before.
  destruct (wrap_loop measure maxWidth done) as [lines currentLine].
  cbn [fst snd].
  destruct (wrap_step_cases lines currentLine word) as [[Hover ->]|[Hnot ->]];
    split; intros H; tauto || reflexivity.
Qed.
End WrapText.

(** ** Word wrap: the routine *)

(** A word that meets an empty line becomes the line, whatever its width. *)
Lemma wrap_step_empty_line measure maxWidth lines word :
  wrap_step measure maxWidth (lines, EmptyString) word = (lines, word).
Proof.
  destruct (wrap_step_cases measure maxWidth lines "" word)
    as [[[_ Habs] _]|[_ ->]]; [congruence | reflexivity].
Qed.

(** A word that would exceed the width after a line begins a new line. *)
Lemma wrap_step_over measure maxWidth lines currentLine word :
  currentLine <> EmptyString ->
  measure (currentLine +:+ " " +:+ word) > maxWidth ->
  wrap_step measure maxWidth (lines, currentLine) word
  = (lines ++ [currentLine], word).
Proof.
  intros Hne Hover.
  destruct (wrap_step_cases measure maxWidth lines currentLine word)
    as [[_ ->]|[Hnot _]]; [reflexivity|].
  exfalso. apply Hnot. split; [|exact Hne].
  rewrite testLineOf_nonempty by exact Hne. exact Hover.
Qed.

(** A word that fits after a line joins the line. *)
Lemma wrap_step_fit measure maxWidth lines currentLine word :
  currentLine <> EmptyString ->
  measure (currentLine +:+ " " +:+ word) <= maxWidth ->
  wrap_step measure maxWidth (lines, currentLine) word
  = (lines, currentLine +:+ " " +:+ word).
Proof.
  intros Hne Hfit.
  destruct (wrap_step_cases measure maxWidth lines currentLine word)
    as [[[Hover _] _]|[_ ->]].
  - rewrite testLineOf_nonempty in Hover by exact Hne. lra.
  - rewrite testLineOf_nonempty by exact Hne. reflexivity.
Qed.

(** The text of the example: two words fit on a line of nine characters,
    three do not. *)
Example wrapText_quick_brown_fox :
  wrapText (fun s => INR (String.length s)) "the quick brown fox" 9
  = ["the quick"; "brown fox"].
Proof.
  unfold wrapText.
  change (split "the quick brown fox") with ["the"; "quick"; "brown"; "fox"].
  unfold wrap_loop. cbn [fold_left].
  rewrite wrap_step_empty_line.
  rewrite wrap_step_fit; [|discriminate|].
  2: { change (String.length ("the" +:+ " " +:+ "quick")) with 9%nat.
       simpl. lra. }
  change ("the" +:+ " " +:+ "quick") with "the quick".
  rewrite wrap_step_over; [|discriminate|].
  2: { change (String.length ("the quick" +:+ " " +:+ "brown")) with 15%nat.
       simpl. lra. }
  rewrite wrap_step_fit; [|discriminate|].
  2: { change (String.length ("brown" +:+ " " +:+ "fox")) with 9%nat.
       simpl. lra. }
  reflexivity.
Qed.

Lemma groupFits_one measure maxWidth word : groupFits measure maxWidth [word].
Proof.
  intros before word' after Heq Hne.
  destruct before as [|first before]; [congruence|].
  simpl in Heq. injection Heq as _ Heq. destruct before; discriminate.
Qed.

Lemma groupFits_snoc measure maxWidth run word :
  groupFits measure maxWidth run ->
  measure (join run +:+ " " +:+ word) <= maxWidth ->
  groupFits measure maxWidth (run ++ [word]).
Proof.
  intros Hrun Hword before word' after Heq Hne.
  destruct after as [|last after _] using rev_ind.
  - apply app_inj_tail in Heq as [<- <-]. exact Hword.
  - change (before ++ word' :: after ++ [last])
      with (before ++ (word' :: after) ++ [last]) in Heq.
    rewrite app_assoc in Heq. apply app_inj_tail in Heq as [-> _].
    apply (Hrun before word' after eq_refl Hne).
Qed.

Lemma breaksForced_new_group measure maxWidth groups run word :
  breaksForced measure maxWidth (groups ++ [run]) ->
  measure (join run +:+ " " +:+ word) > maxWidth ->
  breaksForced measure maxWidth ((groups ++ [run]) ++ [[word]]).
Proof.
  intros Hold Hbreak i group next word' Hgroup Hnext Hhead.
  assert (Hi : (S i < length ((groups ++ [run]) ++ [[word]]))%nat)
    by (eapply lookup_lt_Some, Hnext).
  rewrite !length_app in Hi. simpl in Hi.
  destruct (decide (S i < length (groups ++ [run]))%nat) as [Hlt|Hge].
  - rewrite lookup_app_l in Hgroup by lia.
    rewrite lookup_app_l in Hnext by exact Hlt.
    apply (Hold i group next word' Hgroup Hnext Hhead).
  - rewrite length_app in Hge. simpl in Hge.
    assert (Hidx : i = length groups) by lia. subst i.
    rewrite lookup_app_l in Hgroup by (rewrite length_app; simpl; lia).
    rewrite list_lookup_middle in Hgroup by reflexivity.
    injection Hgroup as <-.
    rewrite lookup_app_r in Hnext by (rewrite length_app; simpl; lia).
    replace (S (length groups) - length (groups ++ [run]))%nat with 0%nat in Hnext
      by (rewrite length_app; simpl; lia).
    injection Hnext as <-. injection Hhead as <-. exact Hbreak.
Qed.

Lemma breaksForced_longer_group measure maxWidth groups run word :
  run <> [] ->
  breaksForced measure maxWidth (groups ++ [run]) ->
  breaksForced measure maxWidth (groups ++ [run ++ [word]]).
Proof.
  intros Hrun Hold i group next word' Hgroup Hnext Hhead.
  assert (Hi : (S i < length (groups ++ [run ++ [word]]))%nat)
    by (eapply lookup_lt_Some, Hnext).
  rewrite length_app in Hi. simpl in Hi.
  rewrite lookup_app_l in Hgroup by lia.
  destruct (decide (S i < length groups)%nat) as [Hlt|Hge].
  - rewrite lookup_app_l in Hnext by exact Hlt.
    apply (Hold i group next word').
    + rewrite lookup_app_l by lia. exact Hgroup.
    + rewrite lookup_app_l by exact Hlt. exact Hnext.
    + exact Hhead.
  - assert (Hidx : S i = length groups) by lia.
    rewrite Hidx, list_lookup_middle in Hnext by reflexivity.
    injection Hnext as <-.
    apply (Hold i group run word').
    + rewrite lookup_app_l by lia. exact Hgroup.
    + rewrite Hidx. apply list_lookup_middle. reflexivity.
    + destruct run; [congruence | exact Hhead].
Qed.

(** When no word is empty, the loop cuts the words greedily: it has the
    finished groups and the group of the current line, every break between
    two groups was forced, and every word inside a group fitted. *)
Lemma wrap_loop_greedy measure maxWidth words :
  Forall (fun word => word <> EmptyString) words -> words <> [] ->
  exists groups run,
    (wrap_loop measure maxWidth words).1 = map join groups
    /\ (wrap_loop measure maxWidth words).2 = join run
    /\ run <> []
    /\ words = concat groups ++ run
    /\ Forall (fun group => group <> []) groups
    /\ breaksForced measure maxWidth (groups ++ [run])
    /\ Forall (groupFits measure maxWidth) (groups ++ [run]).
Proof.
  induction words as [|word words IH] using rev_ind; [congruence|].
  intros Hwords _. apply Forall_app in Hwords as [Hwords Hword].
  rewrite wrap_loop_snoc.
  destruct words as [|first others].
  - change (wrap_loop measure maxWidth []) with (@nil string, EmptyString).
    rewrite wrap_step_empty_line.
    exists [], [word].
    split; [reflexivity|]. split; [reflexivity|]. split; [discriminate|].
    split; [reflexivity|]. split; [constructor|]. split.
    + intros i group next word' Hgroup Hnext _.
      apply lookup_lt_Some in Hnext. simpl in Hnext. lia.
    + constructor; [apply groupFits_one | constructor].
  - destruct (IH Hwords) as (groups & run & Hlines & Hcur & Hrun & Hsplit
                             & Hgroups & Hbreaks & Hfits); [discriminate|].
    destruct (wrap_loop measure maxWidth (first :: others)) as [lines currentLine].
    cbn [fst snd] in Hlines, Hcur. subst lines currentLine.
    assert (Hjoin : join run <> EmptyString).
    { apply join_nonempty; [exact Hrun|].
      rewrite Hsplit in Hwords. apply Forall_app in Hwords as [_ Hall].
      exact Hall. }
    destruct (wrap_step_cases measure maxWidth (map join groups) (join run) word)
      as [[[Hover _] ->]|[Hnot ->]]; cbn [fst snd].
    + rewrite testLineOf_nonempty in Hover by exact Hjoin.
      exists (groups ++ [run]), [word]. rewrite map_app.
      split; [reflexivity|]. split; [reflexivity|]. split; [discriminate|].
      split; [rewrite Hsplit, concat_app; simpl; by rewrite app_nil_r|].
      split; [apply Forall_app; split; [exact Hgroups | by constructor]|].
      split; [apply breaksForced_new_group; assumption|].
      apply Forall_app. split; [exact Hfits|].
      constructor; [apply groupFits_one | constructor].
    + assert (Hfit : measure (join run +:+ " " +:+ word) <= maxWidth).
      { destruct (Rle_or_lt (measure (join run +:+ " " +:+ word)) maxWidth)
          as [Hle|Hlt]; [exact Hle|].
        exfalso. apply Hnot. split; [|exact Hjoin].
        rewrite testLineOf_nonempty by exact Hjoin. lra. }
      rewrite testLineOf_nonempty by exact Hjoin.
      exists groups, (run ++ [word]).
      split; [reflexivity|]. split; [symmetry; apply join_snoc, Hrun|].
      split; [destruct run; discriminate|].
      split; [rewrite Hsplit, app_assoc; reflexivity|].
      split; [exact Hgroups|].
      split; [apply breaksForced_longer_group; assumption|].
      apply Forall_app in Hfits as [Hfits Hlast].
      apply Forall_app. split; [exact Hfits|].
      inversion Hlast as [|? ? Hrunfits _]; subst.
      constructor; [apply groupFits_snoc; assumption | constructor].
Qed.

(** The lines of a text without an empty word are the words cut greedily
    into groups. *)
Lemma wrapText_greedy measure maxWidth text :
  Forall (fun word => word <> EmptyString) (split text) ->
  exists groups,
    wrapText measure text maxWidth = map join groups
    /\ concat groups = split text
    /\ Forall (fun group => group <> []) groups
    /\ breaksForced measure maxWidth groups
    /\ Forall (groupFits measure maxWidth) groups.
Proof.
  intros Hwords. rewrite wrapText_unfold.
  destruct (wrap_loop_greedy measure maxWidth (split text) Hwords (split_not_nil text))
    as (groups & run & Hlines & Hcur & Hrun & Hsplit & Hgroups & Hbreaks & Hfits).
  assert (Hjoin : join run <> EmptyString).
  { apply join_nonempty; [exact Hrun|].
    rewrite Hsplit in Hwords. apply Forall_app in Hwords as [_ Hall].
    exact Hall. }
  rewrite Hlines, Hcur.
  apply truthy_string_true in Hjoin. rewrite Hjoin.
  exists (groups ++ [run]). rewrite map_app, concat_app. simpl.
  rewrite app_nil_r. split; [reflexivity|]. split; [by rewrite Hsplit|].
  split; [apply Forall_app; split; [exact Hgroups | by constructor]|].
  split; [exact Hbreaks | exact Hfits].
Qed.

(** C8, as stated, fails: the leading space of a text is lost, so that the
    joined lines are not the text. *)
Lemma wrapText_join_counterexample :
  wrapText (fun _ => 0) " a" 1 = ["a"]
  /\ join (wrapText (fun _ => 0) " a" 1) <> " a".
Proof.
  assert (Hlines : wrapText (fun _ => 0) " a" 1 = ["a"]).
  { rewrite wrapText_unfold.
    change (split " a") with [EmptyString; "a"].
    unfold wrap_loop. cbn [fold_left].
    rewrite !wrap_step_empty_line. reflexivity. }
  split; [exact Hlines|]. rewrite Hlines. discriminate.
Qed.

(** C8, amended. The lines of a text are runs of consecutive whole words of
    the text. The lines returned are those the loop has finished after the
    last word, and its current line unless this is empty; the loop starts
    with no line and an empty current line, and after each word it has begun
    a new line exactly when adding the word to the current line would exceed
    the width and that line is not empty; otherwise the word has joined the
    current line, so that a word alone on its line stays there however wide
    it is. Every line of more than one word is at most as wide as the
    maximum. And when no word of the text is empty, that is, when the text
    has no leading, trailing or doubled space, the lines are the words cut
    into groups, where the first word of a group did not fit on the line
    before and every other word fitted on the line of the words before it;
    joined by single spaces, the lines are the text. *)
Theorem wrapText_spec (measure : string -> R) (text : string) (maxWidth : R) :
  let words := split text in
  let lines := wrapText measure text maxWidth in
  (forall line, In line lines -> isRun line words)
  /\ (wrap_loop measure maxWidth [] = ([], EmptyString)
      /\ lines
         = (wrap_loop measure maxWidth words).1
           ++ (if truthy_string (wrap_loop measure maxWidth words).2
               then [(wrap_loop measure maxWidth words).2] else []))
  /\ (forall done word rest,
        words = done ++ word :: rest ->
        let before := wrap_loop measure maxWidth done in
        let after := wrap_loop measure maxWidth (done ++ [word]) in
        (overflows measure maxWidth before.2 word ->
         after = (before.1 ++ [before.2], word))
        /\ (~ overflows measure maxWidth before.2 word ->
            after = (before.1, testLineOf before.2 word)))
  /\ (forall word,
        containsSpace word = false -> word <> EmptyString ->
        wrapText measure word maxWidth = [word])
  /\ (forall line,
        In line lines -> (1 < length (split line))%nat ->
        measure line <= maxWidth)
  /\ (Forall (fun word => word <> EmptyString) words ->
      join lines = text
      /\ exists groups,
           lines = map join groups /\ concat groups = words
           /\ Forall (fun group => group <> []) groups
           /\ breaksForced measure maxWidth groups
           /\ Forall (groupFits measure maxWidth) groups).
Proof.
  intros words lines.
  split; [apply wrapText_runs|].
  split; [split; [reflexivity | apply wrapText_unfold]|].
  split; [intros done word rest _; apply wrap_loop_break|].
  split; [intros word Hnospace Hne; apply wrapText_one_word; assumption|].
  split; [apply wrapText_fits|].
  intros Hwords. split; [apply wrapText_join, Hwords|].
  apply wrapText_greedy, Hwords.
Qed.

(** The text of the example, measured by its number of characters: two
    words fit on a line of nine characters, three do not. *)
Lemma wrapText_spec_witness :
  let measure := fun s => INR (String.length s) in
  let lines := wrapText measure "the quick brown fox" 9 in
  join lines = "the quick brown fox"
  /\ exists groups,
       lines = map join groups
       /\ concat groups = ["the"; "quick"; "brown"; "fox"]
       /\ Forall (fun group => group <> []) groups
       /\ breaksForced measure 9 groups
       /\ Forall (groupFits measure 9) groups.
Proof.
  intros measure lines.
  apply (wrapText_spec measure "the quick brown fox" 9).
  repeat constructor; discriminate.
Defined.

(** ** Overlay renderer: proofs *)

Lemma draws_ret : draws (ret tt) [].
Proof. intros [cs es]. unfold ret. simpl. rewrite app_nil_r. reflexivity. Qed.

Lemma draws_call c : draws (call c) [c].
Proof. intros w. reflexivity. Qed.

Lemma draws_bind (m : Js unit) (k : unit -> Js unit) cs1 cs2 :
  draws m cs1 -> draws (k tt) cs2 -> draws (bind m k) (cs1 ++ cs2).
Proof.
  intros Hm Hk w. unfold bind. rewrite Hm, Hk. simpl.
  rewrite app_assoc. reflexivity.
Qed.

Lemma draws_bind_call c (k : unit -> Js unit) cs :
  draws (k tt) cs -> draws (bind (call c) k) (c :: cs).
Proof. intros Hk. apply (draws_bind (call c) k [c] cs (draws_call c) Hk). Qed.

Lemma bind_ret_l {A B} (a : A) (k : A -> Js B) : bind (ret a) k = k a.
Proof. reflexivity. Qed.

(** A loop whose body makes one call makes one call for each item. *)
Lemma draws_forEachFrom {A} (P : CanvasCall -> Prop) (f : A -> nat -> Js unit)
    index (l : list A) :
  (forall item i, exists c, draws (f item i) [c] /\ P c) ->
  exists cs,
    draws (forEachFrom index l f) cs /\ Forall P cs /\ length cs = length l.
Proof.
  intros Hf. revert index.
  induction l as [|item l IH]; intros index; simpl.
  - exists []. split; [apply draws_ret|]. split; [constructor | reflexivity].
  - destruct (Hf item index) as (c & Hc & HP).
    destruct (IH (S index)) as (cs & Hcs & HPs & Hlen).
    exists (c :: cs). split; [|split].
    + apply (draws_bind _ _ [c] cs Hc Hcs).
    + constructor; assumption.
    + simpl. rewrite Hlen. reflexivity.
Qed.

Lemma draws_forEach {A} (P : CanvasCall -> Prop) (f : A -> nat -> Js unit)
    (l : list A) :
  (forall item i, exists c, draws (f item i) [c] /\ P c) ->
  exists cs, draws (forEach l f) cs /\ Forall P cs /\ length cs = length l.
Proof. apply draws_forEachFrom. Qed.

Lemma bubbleHeights_app cs1 cs2 :
  bubbleHeights (cs1 ++ cs2) = bubbleHeights cs1 ++ bubbleHeights cs2.
Proof. apply flat_map_app. Qed.

Lemma bubbleHeights_none cs :
  Forall (fun c => bubbleHeights [c] = []) cs -> bubbleHeights cs = [].
Proof.
  induction 1 as [|c cs Hc _ IH]; [reflexivity|].
  change (c :: cs) with ([c] ++ cs). rewrite bubbleHeights_app, Hc, IH.
  reflexivity.
Qed.

Lemma bubbleHeights_mesh cs :
  Forall (fun c => isMeshCall c = true) cs -> bubbleHeights cs = [].
Proof.
  induction 1 as [|c cs Hc _ IH]; [reflexivity|].
  unfold bubbleHeights in *. simpl. rewrite IH.
  destruct c; try discriminate; reflexivity.
Qed.

Lemma markers_mesh cs :
  Forall (fun c => isMeshCall c = true) cs -> List.filter isMarkerCall cs = [].
Proof.
  induction 1 as [|c cs Hc _ IH]; [reflexivity|].
  simpl. rewrite IH. destruct c; try discriminate; reflexivity.
Qed.

(** The mesh is drawn with calls of the drawing utilities only. *)
Lemma drawMesh_draws lms :
  exists cs, draws (drawMesh lms) cs /\ Forall (fun c => isMeshCall c = true) cs.
Proof.
  unfold drawMesh.
  match goal with
  | |- context [forEach ?l ?f] =>
      destruct (draws_forEach (fun c => isMeshCall c = true) f l)
        as (loop & Hloop & Hmesh & _)
  end.
  { intros feature i. eexists. split; [apply draws_call | reflexivity]. }
  eexists. split.
  - apply draws_bind_call. eapply draws_bind; [exact Hloop | apply draws_call].
  - constructor; [reflexivity|].
    apply Forall_app. split; [exact Hmesh | repeat constructor].
Qed.

(** The marker is drawn without a bubble. *)
Lemma drawForehead_draws forehead cw ch active :
  exists cs,
    draws (drawForehead (Some forehead) cw ch active) cs
    /\ bubbleHeights cs = [].
Proof.
  eexists. split.
  - unfold drawForehead, prop, drawSphere. rewrite !bind_ret_l.
    repeat apply draws_bind_call. apply draws_call.
  - reflexivity.
Qed.

(** The caption is drawn with one bubble, of the height of its lines. *)
Lemma drawCaption_draws measureText forehead cw ch caption active :
  truthy_string caption.(text) = true ->
  exists cs,
    draws (drawCaption measureText (Some forehead) cw ch caption active) cs
    /\ bubbleHeights cs =
       [Rmax (20 * INR (length (wrapText (measureText captionFont)
                                  caption.(text) (300 - 40))) + 20) 46].
Proof.
  intros Htext. unfold drawCaption, prop. rewrite Htext.
  rewrite !bind_ret_l. cbv zeta.
  match goal with
  | |- context [forEach ?l ?f] =>
      destruct (draws_forEach (fun c => bubbleHeights [c] = []) f l)
        as (loop & Hloop & Htexts & _)
  end.
  { intros line index. eexists. split; [apply draws_call | reflexivity]. }
  eexists. split.
  - repeat apply draws_bind_call.
    eapply draws_bind; [exact Hloop|].
    apply draws_bind_call. apply draws_call.
  - unfold bubbleHeights. simpl. rewrite flat_map_app. simpl.
    fold (bubbleHeights loop). rewrite (bubbleHeights_none loop Htexts).
    reflexivity.
Qed.

(** What the renderer draws, by the presence of the anchor landmark and of
    a caption text: it always ends normally; without the anchor it draws
    the mesh only; with it, it draws the marker, and one bubble exactly when
    there is a text. *)
Lemma FaceMeshRenderer_draws measureText lms cw ch caption isActiveFace :
  exists cs,
    draws (FaceMeshRenderer measureText lms cw ch caption isActiveFace) cs
    /\ match lms !! 10%nat with
       | None => Forall (fun c => isMeshCall c = true) cs
       | Some _ =>
           bubbleHeights cs =
           if truthy_string caption.(text)
           then [Rmax (20 * INR (length (wrapText (measureText captionFont)
                                           caption.(text) (300 - 40))) + 20) 46]
           else []
       end.
Proof.
  destruct (drawMesh_draws lms) as (mesh & Hmesh & Hmeshcalls).
  unfold FaceMeshRenderer. cbv zeta.
  destruct (lms !! 10%nat) as [forehead|]; unfold when; cbn [truthy andb].
  - destruct (drawForehead_draws forehead cw ch (default true isActiveFace))
      as (marker & Hmarker & Hnobubble).
    destruct (truthy_string caption.(text)) eqn:Htext.
    + destruct (drawCaption_draws measureText forehead cw ch caption
                  (default true isActiveFace) Htext)
        as (bubble & Hbubble & Hheight).
      exists (mesh ++ marker ++ bubble). split.
      * apply draws_bind; [exact Hmesh|].
        apply draws_bind; [exact Hmarker | exact Hbubble].
      * rewrite !bubbleHeights_app, (bubbleHeights_mesh mesh Hmeshcalls),
          Hnobubble, Hheight. reflexivity.
    + exists (mesh ++ marker ++ []). split.
      * apply draws_bind; [exact Hmesh|].
        apply draws_bind; [exact Hmarker | apply draws_ret].
      * rewrite !bubbleHeights_app, (bubbleHeights_mesh mesh Hmeshcalls),
          Hnobubble. reflexivity.
  - exists (mesh ++ [] ++ []). split.
    + apply draws_bind; [exact Hmesh|].
      apply draws_bind; apply draws_ret.
    + rewrite !app_nil_r. exact Hmeshcalls.
Qed.

(** C9. For a caption text that is not empty, every caption bubble the
    renderer draws has the height [max (lineHeight * numberOfLines +
    verticalPadding) minimumHeight], for the line height 20, the vertical
    padding 20 and the minimum height 46, where the lines are those of
    the wrapped text; and with the anchor landmark in the set it draws
    exactly one bubble. *)
Theorem FaceMeshRenderer_bubble_height
    (measureText : string -> string -> R) (lms : list FaceLandmark)
    (canvasWidth canvasHeight : R) (caption : Caption)
    (isActiveFace : option bool) :
  caption.(text) <> EmptyString ->
  let lineHeight := 20 in
  let verticalPadding := 20 in
  let minimumHeight := 46 in
  let numberOfLines :=
    length (wrapText (measureText captionFont) caption.(text) (300 - 40)) in
  let bubbleHeight :=
    Rmax (lineHeight * INR numberOfLines + verticalPadding) minimumHeight in
  exists cs,
    draws (FaceMeshRenderer measureText lms canvasWidth canvasHeight caption
             isActiveFace) cs
    /\ Forall (fun h => h = bubbleHeight) (bubbleHeights cs)
    /\ (is_Some (lms !! 10%nat) -> bubbleHeights cs = [bubbleHeight]).
Proof.
  intros Htext lineHeight verticalPadding minimumHeight numberOfLines bubbleHeight.
  apply truthy_string_true in Htext.
  destruct (FaceMeshRenderer_draws measureText lms canvasWidth canvasHeight
              caption isActiveFace) as (cs & Hdraws & Hcases).
  exists cs. split; [exact Hdraws|].
  destruct (lms !! 10%nat) as [forehead|].
  - rewrite Htext in Hcases. rewrite Hcases.
    split; [repeat constructor | reflexivity].
  - rewrite (bubbleHeights_mesh cs Hcases).
    split; [constructor | intros [forehead Habs]; discriminate].
Qed.

(** A face of eleven landmarks, the last of which is the anchor, and a
    caption of one word. *)
Lemma FaceMeshRenderer_bubble_height_witness :
  let lms := replicate 11 (mkFaceLandmark (1 / 2) (1 / 2) 0) in
  let caption := mkCaption "hello" 0 in
  let bubbleHeight :=
    Rmax (20 * INR (length (wrapText (fun s => INR (String.length s)) "hello"
                              (300 - 40))) + 20) 46 in
  exists cs,
    draws (FaceMeshRenderer (fun _ s => INR (String.length s)) lms 640 480
             caption (Some true)) cs
    /\ Forall (fun h => h = bubbleHeight) (bubbleHeights cs)
    /\ (is_Some (lms !! 10%nat) -> bubbleHeights cs = [bubbleHeight]).
Proof.
  intros lms caption.
  apply (FaceMeshRenderer_bubble_height (fun _ s => INR (String.length s)) lms
           640 480 caption (Some true)).
  discriminate.
Defined.

(** C10. The renderer never raises an error. For a landmark set without
    the anchor landmark, it makes the calls that draw the mesh and no other:
    neither the forehead marker nor a caption bubble is drawn. And it draws
    a caption bubble only when the anchor landmark exists and the caption
    text is not empty, and then it does. *)
Theorem FaceMeshRenderer_anchor
    (measureText : string -> string -> R) (lms : list FaceLandmark)
    (canvasWidth canvasHeight : R) (caption : Caption)
    (isActiveFace : option bool) :
  exists cs,
    (forall w,
        FaceMeshRenderer measureText lms canvasWidth canvasHeight caption
          isActiveFace w
        = (Normal tt, {| calls := w.(calls) ++ cs; effects := w.(effects) |}))
    /\ (lms !! 10%nat = None ->
        Forall (fun c => isMeshCall c = true) cs
        /\ List.filter isMarkerCall cs = []
        /\ bubbleHeights cs = [])
    /\ (bubbleHeights cs <> [] <->
        is_Some (lms !! 10%nat) /\ caption.(text) <> EmptyString).
Proof.
  destruct (FaceMeshRenderer_draws measureText lms canvasWidth canvasHeight
              caption isActiveFace) as (cs & Hdraws & Hcases).
  exists cs. split; [exact Hdraws|].
  destruct (lms !! 10%nat) as [forehead|].
  - split; [discriminate|]. rewrite Hcases.
    destruct (truthy_string caption.(text)) eqn:Htext.
    + apply truthy_string_true in Htext. split; [|discriminate].
      intros _. split; [eexists; reflexivity | exact Htext].
    + apply truthy_string_false in Htext. split; [congruence|].
      intros [_ Hne]. congruence.
  - split.
    + intros _. split; [exact Hcases|].
      split; [apply markers_mesh | apply bubbleHeights_mesh]; exact Hcases.
    + rewrite (bubbleHeights_mesh cs Hcases). split; [congruence|].
      intros [[forehead Habs] _]. discriminate.
Qed.

(** A face without landmarks, hence without the anchor. *)
Lemma FaceMeshRenderer_anchor_witness :
  exists cs,
    draws (FaceMeshRenderer (fun _ _ => 0) [] 640 480 (mkCaption "hello" 0)
             (Some true)) cs
    /\ Forall (fun c => isMeshCall c = true) cs
    /\ List.filter isMarkerCall cs = []
    /\ bubbleHeights cs = [].
Proof.
  destruct (FaceMeshRenderer_anchor (fun _ _ => 0) [] 640 480
              (mkCaption "hello" 0) (Some true)) as (cs & Hdraws & Habsent & _).
  exists cs. split; [exact Hdraws|]. apply Habsent. reflexivity.
Defined.

(** * Further properties of the pipeline *)

(** ** The distance and the openness *)

(** The distance of two landmarks does not depend on their order: it is the
    same from the upper to the lower point as from the lower to the upper
    one; it is never negative, and [0] from a point to itself. *)
Theorem calculateDistance_symmetric (a b : FaceLandmark) :
  calculateDistance a b = calculateDistance b a
  /\ 0 <= calculateDistance a b
  /\ calculateDistance a a = 0.
Proof.
  split; [|split].
  - unfold calculateDistance. cbv zeta. f_equal. ring.
  - apply calculateDistance_nonneg.
  - apply calculateDistance_same.
Qed.

Lemma calculateDistance_translate dx dy dz a b :
  calculateDistance (translate dx dy dz a) (translate dx dy dz b)
  = calculateDistance a b.
Proof. unfold calculateDistance, translate. simpl. f_equal. ring. Qed.

Lemma calculateMouthOpenness_nonneg lms : 0 <= calculateMouthOpenness lms.
Proof.
  rewrite calculateMouthOpenness_unfold.
  destruct (0 <? length (validPairs lms))%nat eqn:Hcount; [|lra].
  apply Nat.ltb_lt, lt_INR in Hcount. simpl in Hcount.
  apply Rmult_le_pos.
  - apply sumR_nonneg, pairDistances_nonneg.
  - left. apply Rinv_0_lt_compat, Hcount.
Qed.

Lemma validPairs_translate dx dy dz lms :
  validPairs (translate dx dy dz <$> lms)
  = prod_map (translate dx dy dz) (translate dx dy dz) <$> validPairs lms.
Proof.
  unfold validPairs. induction lipPairs as [|[u l] prs IH]; [reflexivity|].
  cbn [omap list_omap fmap list_fmap fst snd]. rewrite !list_lookup_fmap.
  fold (@omap list _ (nat * nat)%type (FaceLandmark * FaceLandmark)%type).
  destruct (lms !! u) as [a|], (lms !! l) as [b|]; cbn; rewrite IH; reflexivity.
Qed.

(** Moving the whole face does not change its openness. *)
Theorem calculateMouthOpenness_translate (dx dy dz : R) (lms : list FaceLandmark) :
  calculateMouthOpenness (translate dx dy dz <$> lms) = calculateMouthOpenness lms.
Proof.
  rewrite !calculateMouthOpenness_unfold.
  assert (Hdist : pairDistances (translate dx dy dz <$> lms) = pairDistances lms).
  { unfold pairDistances. rewrite validPairs_translate.
    induction (validPairs lms) as [|[a b] ps IH]; [reflexivity|].
    cbn. rewrite calculateDistance_translate. f_equal. exact IH. }
  rewrite Hdist, validPairs_translate, length_fmap. reflexivity.
Qed.

Lemma omap_all_None {A B} (f : A -> option B) (l : list A) :
  Forall (fun a => f a = None) l -> omap f l = [].
Proof.
  induction 1 as [|a l Ha _ IH]; [reflexivity|].
  cbn. rewrite Ha. exact IH.
Qed.

Lemma omap_all_Some_length {A B} (f : A -> option B) (l : list A) :
  Forall (fun a => is_Some (f a)) l -> length (omap f l) = length l.
Proof.
  induction 1 as [|a l [b Ha] _ IH]; [reflexivity|].
  cbn. rewrite Ha. cbn. f_equal. exact IH.
Qed.

(** A set of fourteen landmarks or fewer has no valid pair: its openness
    is [0]. *)
Theorem calculateMouthOpenness_short (lms : list FaceLandmark) :
  (length lms <= 14)%nat ->
  validPairs lms = [] /\ calculateMouthOpenness lms = 0.
Proof.
  intros Hshort.
  assert (Hnone : validPairs lms = []).
  { unfold validPairs. apply omap_all_None.
    assert (Hlower : Forall (fun pr : nat * nat => (14 <= pr.2)%nat) lipPairs)
      by (repeat constructor; simpl; lia).
    eapply Forall_impl; [exact Hlower|]. intros [u l] Hl. simpl in *.
    rewrite (proj2 (lookup_ge_None lms l)) by lia.
    destruct (lms !! u); reflexivity. }
  split; [exact Hnone|].
  rewrite calculateMouthOpenness_unfold, Hnone. reflexivity.
Qed.

Lemma calculateMouthOpenness_short_witness :
  validPairs (replicate 14 (mkFaceLandmark 0 0 0)) = []
  /\ calculateMouthOpenness (replicate 14 (mkFaceLandmark 0 0 0)) = 0.
Proof.
  apply (calculateMouthOpenness_short (replicate 14 (mkFaceLandmark 0 0 0))).
  rewrite length_replicate. lia.
Defined.

(** In a set of 410 landmarks or more, the thirteen pairs are all valid:
    the openness is the thirteenth of the sum of their distances. *)
Theorem calculateMouthOpenness_full (lms : list FaceLandmark) :
  (410 <= length lms)%nat ->
  length (validPairs lms) = 13%nat
  /\ calculateMouthOpenness lms = sumR (pairDistances lms) / 13.
Proof.
  intros Hfull.
  assert (Hall : length (validPairs lms) = 13%nat).
  { unfold validPairs. rewrite omap_all_Some_length; [reflexivity|].
    assert (Hidx : Forall (fun pr : nat * nat => (pr.1 < 410 /\ pr.2 < 410)%nat)
                     lipPairs)
      by (repeat constructor; simpl; lia).
    eapply Forall_impl; [exact Hidx|]. intros [u l] [Hu Hl]. simpl in *.
    destruct (lookup_lt_is_Some_2 lms u) as [a ->]; [lia|].
    destruct (lookup_lt_is_Some_2 lms l) as [b ->]; [lia|].
    eexists. reflexivity. }
  split; [exact Hall|].
  rewrite calculateMouthOpenness_unfold, Hall.
  change (0 <? 13)%nat with true. cbv iota. f_equal. simpl. lra.
Qed.

Lemma calculateMouthOpenness_full_witness :
  length (validPairs (replicate 468 (mkFaceLandmark 0 0 0))) = 13%nat
  /\ calculateMouthOpenness (replicate 468 (mkFaceLandmark 0 0 0))
     = sumR (pairDistances (replicate 468 (mkFaceLandmark 0 0 0))) / 13.
Proof.
  apply (calculateMouthOpenness_full (replicate 468 (mkFaceLandmark 0 0 0))).
  rewrite length_replicate. lia.
Defined.

(** ** The detector and the history *)

(** The detector adds the entry of the face to the history, removes none,
    and leaves the entries of the other faces as they are. *)
Theorem detectMouthMovement_frame
    (history : gmap nat R) (faceId : nat) (currentOpenness : R) :
  let history' := (detectMouthMovement history faceId currentOpenness).1 in
  dom history' = {[faceId]} ∪ dom history
  /\ (forall other, other <> faceId -> history' !! other = history !! other).
Proof.
  intros history'. split.
  - unfold history', detectMouthMovement. simpl. apply dom_insert_L.
  - intros other Hne. apply detectMouthMovement_others. congruence.
Qed.

(** The flag depends on the history through the entry of the face only. *)
Lemma detectMouthMovement_local history1 history2 faceId currentOpenness :
  history1 !! faceId = history2 !! faceId ->
  (detectMouthMovement history1 faceId currentOpenness).2
  = (detectMouthMovement history2 faceId currentOpenness).2.
Proof. intros Heq. unfold detectMouthMovement. simpl. rewrite Heq. reflexivity. Qed.

Lemma detectMouthMovement_unseen history faceId currentOpenness :
  history !! faceId = None ->
  (detectMouthMovement history faceId currentOpenness).2 = false.
Proof.
  intros Hnone. unfold detectMouthMovement. simpl.
  rewrite Hnone, number_or_undefined.
  apply Rgtb_false. unfold MOUTH_MOVEMENT_THRESHOLD.
  replace (currentOpenness - currentOpenness) with 0 by ring.
  rewrite Rabs_R0. lra.
Qed.

(** A face whose stored openness is its current openness does not move. *)
Lemma detectMouthMovement_same history faceId currentOpenness :
  history !! faceId = Some currentOpenness ->
  (detectMouthMovement history faceId currentOpenness).2 = false.
Proof.
  intros Hsame. unfold detectMouthMovement. simpl. rewrite Hsame.
  assert (Hprev : number_or (Some currentOpenness) currentOpenness = currentOpenness).
  { unfold number_or. destruct (truthy_number currentOpenness); reflexivity. }
  rewrite Hprev. apply Rgtb_false. unfold MOUTH_MOVEMENT_THRESHOLD.
  replace (currentOpenness - currentOpenness) with 0 by ring.
  rewrite Rabs_R0. lra.
Qed.

(** Two calls in a row with one openness: the second never reports a
    movement, whatever the openness and the history before. *)
Theorem detectMouthMovement_steady
    (history : gmap nat R) (faceId : nat) (openness : R) :
  (detectMouthMovement (detectMouthMovement history faceId openness).1
     faceId openness).2 = false.
Proof. apply detectMouthMovement_same, detectMouthMovement_stores. Qed.

(** Two calls in a row for one face, with two openness values other than
    [0]: the second call returns the same flag whichever of the two values
    comes first, and whatever the history before the first call. Only the
    openness stored last counts, and opening the mouth by some amount is
    detected as closing it by this amount is. *)
Theorem detectMouthMovement_direction
    (history1 history2 : gmap nat R) (faceId : nat) (v1 v2 : R) :
  v1 <> 0 -> v2 <> 0 ->
  (detectMouthMovement (detectMouthMovement history1 faceId v1).1 faceId v2).2
  = (detectMouthMovement (detectMouthMovement history2 faceId v2).1 faceId v1).2.
Proof.
  intros Hv1 Hv2. unfold detectMouthMovement at 1 3. cbn [snd].
  rewrite !detectMouthMovement_stores, !number_or_truthy by assumption.
  rewrite (Rabs_minus_sym v2 v1). reflexivity.
Qed.

Lemma detectMouthMovement_direction_witness :
  (detectMouthMovement (detectMouthMovement ∅ 0 (1 / 100)).1 0 (2 / 100)).2
  = (detectMouthMovement (detectMouthMovement (<[0%nat := 1]> ∅) 0 (2 / 100)).1 0
       (1 / 100)).2.
Proof.
  apply (detectMouthMovement_direction ∅ (<[0%nat := 1]> ∅) 0 (1 / 100) (2 / 100));
    lra.
Defined.

(** ** The face tracker *)

(** What a pass of the tracker over the landmark sets returns and stores:
    the history keeps its entries below [index] and from
    [index + length sets] on, and has the openness of the [k]-th set at
    [index + k]; the [k]-th record has the id [index + k], the set, its
    openness, the clock reading of the call, and the flag of the detector on
    the history from before the pass. *)
Lemma updateFaces_spec clock sets :
  forall history index,
    let result := updateFaces clock history index sets in
    length result.2 = length sets
    /\ (forall j, (j < index \/ index + length sets <= j)%nat ->
          result.1 !! j = history !! j)
    /\ (forall k lms, sets !! k = Some lms ->
          result.1 !! (index + k)%nat = Some (calculateMouthOpenness lms)
          /\ result.2 !! k =
             Some {| id := (index + k)%nat;
                     landmarks := lms;
                     isMovingMouth :=
                       (detectMouthMovement history (index + k)
                          (calculateMouthOpenness lms)).2;
                     mouthOpenDistance := calculateMouthOpenness lms;
                     lastUpdateTime := clock (index + k)%nat |}).
Proof.
  induction sets as [|faceLandmarks rest IH]; intros history index.
  - simpl. split; [reflexivity|]. split; [reflexivity|].
    intros k lms Hk. discriminate.
  - cbn [updateFaces]. unfold updateFaceData.
    set (openness := calculateMouthOpenness faceLandmarks).
    destruct (detectMouthMovement history index openness) as [history1 moving] eqn:Hdet.
    assert (Hhist1 : history1 = (detectMouthMovement history index openness).1)
      by (rewrite Hdet; reflexivity).
    assert (Hmoving : moving = (detectMouthMovement history index openness).2)
      by (rewrite Hdet; reflexivity).
    specialize (IH history1 (S index)).
    destruct (updateFaces clock history1 (S index) rest) as [history2 updatedFaces].
    cbn [fst snd] in IH. destruct IH as (Hlen & Hframe & Hrecords).
    cbn [fst snd length].
    assert (Hother : forall j, j <> index -> history1 !! j = history !! j).
    { intros j Hne. rewrite Hhist1. apply detectMouthMovement_others. congruence. }
    split; [f_equal; exact Hlen|]. split.
    + intros j Hj. rewrite Hframe by lia. apply Hother. lia.
    + intros [|k] lms Hk.
      * injection Hk as <-. rewrite Nat.add_0_r. split.
        -- rewrite Hframe by lia. rewrite Hhist1. apply detectMouthMovement_stores.
        -- rewrite Hmoving. reflexivity.
      * change ((faceLandmarks :: rest) !! S k) with (rest !! k) in Hk.
        destruct (Hrecords k lms Hk) as [Hstored Hrecord].
        replace (index + S k)%nat with (S index + k)%nat by lia.
        split; [exact Hstored|].
        match goal with
        | |- (?face :: updatedFaces) !! S k = _ =>
            change ((face :: updatedFaces) !! S k) with (updatedFaces !! k)
        end.
        rewrite Hrecord. do 2 f_equal.
        apply detectMouthMovement_local, Hother. lia.
Qed.

(** The records of a pass: one for each landmark set, in the order of the
    sets; the record at position [k] has the id [k], the set, its openness,
    which is not negative, and the flag the detector gives for this face on
    the history from before the pass, whatever the other faces are. *)
Theorem updateFaces_records
    (clock : nat -> Z) (history : gmap nat R) (sets : list (list FaceLandmark)) :
  let faces := (updateFaces clock history 0 sets).2 in
  length faces = length sets
  /\ forall k lms,
       sets !! k = Some lms ->
       exists face,
         faces !! k = Some face
         /\ face.(id) = k
         /\ face.(landmarks) = lms
         /\ face.(mouthOpenDistance) = calculateMouthOpenness lms
         /\ 0 <= face.(mouthOpenDistance)
         /\ face.(lastUpdateTime) = clock k
         /\ face.(isMovingMouth)
            = (detectMouthMovement history k (calculateMouthOpenness lms)).2.
Proof.
  intros faces.
  destruct (updateFaces_spec clock sets history 0) as (Hlen & _ & Hrecords).
  split; [exact Hlen|]. intros k lms Hk.
  destruct (Hrecords k lms Hk) as [_ Hrecord]. simpl in Hrecord.
  eexists. split; [exact Hrecord|]. simpl.
  repeat split; try reflexivity. apply calculateMouthOpenness_nonneg.
Qed.

(** The history after a pass over [n] landmark sets: the entries [0] to
    [n - 1] are the openness values of the sets, and every other entry is
    as before; no entry is removed. *)
Theorem updateFaces_history
    (clock : nat -> Z) (history : gmap nat R) (sets : list (list FaceLandmark)) :
  let history' := (updateFaces clock history 0 sets).1 in
  (forall k lms, sets !! k = Some lms ->
     history' !! k = Some (calculateMouthOpenness lms))
  /\ (forall j, (length sets <= j)%nat -> history' !! j = history !! j)
  /\ dom history ⊆ dom history'.
Proof.
  intros history'.
  destruct (updateFaces_spec clock sets history 0) as (_ & Hframe & Hrecords).
  split; [|split].
  - intros k lms Hk. apply (Hrecords k lms Hk).
  - intros j Hj. apply Hframe. simpl. lia.
  - intros j Hin. apply elem_of_dom. apply elem_of_dom in Hin.
    destruct (decide (j < length sets)%nat) as [Hlt|Hge].
    + destruct (lookup_lt_is_Some_2 sets j Hlt) as [lms Hlms].
      eexists. apply (Hrecords j lms Hlms).
    + fold history'. unfold history'. rewrite Hframe by (simpl; lia). exact Hin.
Qed.

(** In the first pass, on the empty history, no face is moving. *)
Theorem updateFaces_first_pass
    (clock : nat -> Z) (sets : list (list FaceLandmark)) :
  Forall (fun face => face.(isMovingMouth) = false)
    (updateFaces clock ∅ 0 sets).2.
Proof.
  destruct (updateFaces_spec clock sets ∅ 0) as (Hlen & _ & Hrecords).
  apply Forall_lookup. intros k face Hface.
  destruct (lookup_lt_is_Some_2 sets k) as [lms Hlms].
  { rewrite <- Hlen. eapply lookup_lt_Some, Hface. }
  destruct (Hrecords k lms Hlms) as [_ Hrecord]. simpl in Hrecord.
  rewrite Hrecord in Hface. injection Hface as <-. simpl.
  apply detectMouthMovement_unseen, lookup_empty.
Qed.

(** In a pass over the landmark sets of the pass before, no face is
    moving. *)
Theorem updateFaces_steady
    (clock1 clock2 : nat -> Z) (history : gmap nat R)
    (sets : list (list FaceLandmark)) :
  let history1 := (updateFaces clock1 history 0 sets).1 in
  Forall (fun face => face.(isMovingMouth) = false)
    (updateFaces clock2 history1 0 sets).2.
Proof.
  intros history1.
  destruct (updateFaces_spec clock1 sets history 0) as (_ & _ & Hfirst).
  destruct (updateFaces_spec clock2 sets history1 0) as (Hlen & _ & Hsecond).
  apply Forall_lookup. intros k face Hface.
  destruct (lookup_lt_is_Some_2 sets k) as [lms Hlms].
  { rewrite <- Hlen. eapply lookup_lt_Some, Hface. }
  destruct (Hsecond k lms Hlms) as [_ Hrecord]. simpl in Hrecord.
  rewrite Hrecord in Hface. injection Hface as <-. simpl.
  apply detectMouthMovement_same. apply (Hfirst k lms Hlms).
Qed.

(** ** The selector *)

Lemma isFirstLargest_In face faces : isFirstLargest face faces -> In face faces.
Proof.
  intros (before & after & -> & _). apply in_or_app. right. left. reflexivity.
Qed.

Lemma determineSpeakingFace_none_kept currentTime activeFaceId updatedFaces :
  List.filter (isMovingFace currentTime) updatedFaces = [] ->
  determineSpeakingFace currentTime activeFaceId updatedFaces
  = match activeFaceId with
    | Some active => Some active
    | None => id <$> head updatedFaces
    end.
Proof.
  intros Hnil. unfold determineSpeakingFace. rewrite Hnil. simpl.
  destruct activeFaceId; [reflexivity|]. destruct updatedFaces; reflexivity.
Qed.

(** What the selector returns when every record is as old as the timeout
    or older and no mouth moves: the previous active id when there is one,
    even if no record has this id, and otherwise the id of the first record,
    if there is a record. *)
Theorem determineSpeakingFace_fallback
    (currentTime : Z) (activeFaceId : option nat) (updatedFaces : list FaceData) :
  Forall (fun face =>
            face.(isMovingMouth) = false
            /\ (MOUTH_MOVEMENT_TIMEOUT <= currentTime - face.(lastUpdateTime))%Z)
    updatedFaces ->
  determineSpeakingFace currentTime activeFaceId updatedFaces
  = match activeFaceId with
    | Some active => Some active
    | None => id <$> head updatedFaces
    end.
Proof.
  intros Hstale. apply determineSpeakingFace_none_kept.
  induction Hstale as [|face faces [Hstill Hold] _ IH]; [reflexivity|].
  simpl. unfold isMovingFace at 1. rewrite Hstill.
  rewrite (proj2 (Z.ltb_ge _ _) Hold). exact IH.
Qed.

(** Two records older than the timeout, neither moving, and the previous
    active id 7, which no record has. *)
Lemma determineSpeakingFace_fallback_witness :
  determineSpeakingFace 5000 (Some 7%nat)
    [mkFaceData 0 [] false (1 / 100) 1000; mkFaceData 1 [] false (5 / 100) 1000]
  = Some 7%nat.
Proof.
  apply (determineSpeakingFace_fallback 5000 (Some 7%nat)
           [mkFaceData 0 [] false (1 / 100) 1000;
            mkFaceData 1 [] false (5 / 100) 1000]).
  repeat constructor; unfold MOUTH_MOVEMENT_TIMEOUT; simpl; lia.
Defined.

(** When a mouth moves or a record is younger than the timeout, the
    selector returns the id of one of these records: the one with the
    largest mouth opening, and the first of them in frame order among
    equals. The other records and the previous active id play no part. *)
Theorem determineSpeakingFace_widest_kept
    (currentTime : Z) (activeFaceId : option nat) (updatedFaces : list FaceData) :
  Exists (fun face => isMovingFace currentTime face = true) updatedFaces ->
  exists face,
    isFirstLargest face (List.filter (isMovingFace currentTime) updatedFaces)
    /\ isMovingFace currentTime face = true
    /\ In face updatedFaces
    /\ determineSpeakingFace currentTime activeFaceId updatedFaces = Some face.(id).
Proof.
  intros Hkept.
  destruct (determineSpeakingFace_moving currentTime activeFaceId updatedFaces)
    as (face & Hlargest & Hselected).
  { apply List.Exists_exists in Hkept as (face & Hin & Hface).
    intros Hnil.
    assert (Hkeep : In face (List.filter (isMovingFace currentTime) updatedFaces))
      by (apply filter_In; auto).
    rewrite Hnil in Hkeep. destruct Hkeep. }
  exists face. split; [exact Hlargest|].
  apply isFirstLargest_In, filter_In in Hlargest. tauto.
Qed.

(** Three records, of which the filter keeps the last two: the selector
    returns the wider of these, not the widest of all. *)
Lemma determineSpeakingFace_widest_kept_witness :
  let faces :=
    [mkFaceData 0 [] false (9 / 100) 1000; mkFaceData 1 [] true (1 / 100) 1000;
     mkFaceData 2 [] false (5 / 100) 4000] in
  exists face,
    isFirstLargest face (List.filter (isMovingFace 5000) faces)
    /\ isMovingFace 5000 face = true
    /\ In face faces
    /\ determineSpeakingFace 5000 (Some 0%nat) faces = Some face.(id).
Proof.
  intros faces.
  apply (determineSpeakingFace_widest_kept 5000 (Some 0%nat) faces).
  apply Exists_cons_tl, Exists_cons_hd. reflexivity.
Defined.

(** The selector returns no id only when there is neither a previous
    active id nor a record. *)
Theorem determineSpeakingFace_none_iff
    (currentTime : Z) (activeFaceId : option nat) (updatedFaces : list FaceData) :
  determineSpeakingFace currentTime activeFaceId updatedFaces = None
  <-> activeFaceId = None /\ updatedFaces = [].
Proof.
  destruct (List.filter (isMovingFace currentTime) updatedFaces) as [|m ms] eqn:Hkept.
  - rewrite (determineSpeakingFace_none_kept _ _ _ Hkept).
    destruct activeFaceId as [active|]; [split; [discriminate | intros [? _]; discriminate]|].
    destruct updatedFaces as [|first rest]; simpl; [tauto|].
    split; [discriminate | intros [_ ?]; discriminate].
  - destruct (determineSpeakingFace_moving currentTime activeFaceId updatedFaces)
      as (face & _ & ->); [congruence|].
    split; [discriminate|]. intros [_ ->]. discriminate.
Qed.

(** The id the selector returns is the previous active id or the id of one
    of the records. *)
Theorem determineSpeakingFace_origin
    (currentTime : Z) (activeFaceId : option nat) (updatedFaces : list FaceData)
    (speaking : nat) :
  determineSpeakingFace currentTime activeFaceId updatedFaces = Some speaking ->
  activeFaceId = Some speaking
  \/ exists face, In face updatedFaces /\ face.(id) = speaking.
Proof.
  destruct (List.filter (isMovingFace currentTime) updatedFaces) as [|m ms] eqn:Hkept.
  - rewrite (determineSpeakingFace_none_kept _ _ _ Hkept).
    destruct activeFaceId as [active|]; [auto|].
    destruct updatedFaces as [|first rest]; simpl; [discriminate|].
    intros [= <-]. right. exists first. split; [left|]; reflexivity.
  - destruct (determineSpeakingFace_moving currentTime activeFaceId updatedFaces)
      as (face & Hlargest & ->); [congruence|].
    intros [= <-]. right. exists face. split; [|reflexivity].
    apply isFirstLargest_In in Hlargest.
    apply filter_In in Hlargest. tauto.
Qed.

Lemma determineSpeakingFace_origin_witness :
  Some 7%nat = Some 7%nat
  \/ exists face,
       In face [mkFaceData 0 [] false (1 / 100) 1000] /\ face.(id) = 7%nat.
Proof.
  apply (determineSpeakingFace_origin 5000 (Some 7%nat)
           [mkFaceData 0 [] false (1 / 100) 1000] 7).
  reflexivity.
Defined.

(** When the filter keeps a record, the previous active id plays no part
    in the selection. *)
Theorem determineSpeakingFace_ignores_active
    (currentTime : Z) (active1 active2 : option nat) (updatedFaces : list FaceData) :
  List.filter (isMovingFace currentTime) updatedFaces <> [] ->
  determineSpeakingFace currentTime active1 updatedFaces
  = determineSpeakingFace currentTime active2 updatedFaces.
Proof.
  intros Hkept. unfold determineSpeakingFace.
  destruct (List.filter (isMovingFace currentTime) updatedFaces); [congruence|].
  reflexivity.
Qed.

Lemma determineSpeakingFace_ignores_active_witness :
  determineSpeakingFace 1000 None [mkFaceData 0 [] true (1 / 100) 1000]
  = determineSpeakingFace 1000 (Some 3%nat) [mkFaceData 0 [] true (1 / 100) 1000].
Proof.
  apply (determineSpeakingFace_ignores_active 1000 None (Some 3%nat)
           [mkFaceData 0 [] true (1 / 100) 1000]).
  discriminate.
Defined.

(** ** The word wrap *)

Section WrapTextLines.
Variable measure : string -> R.
Variable maxWidth : R.

Lemma wrap_loop_no_blank words :
  Forall (fun line => line <> EmptyString) (wrap_loop measure maxWidth words).1.
Proof.
  induction words as [|word words IH] using rev_ind; [constructor|].
  rewrite wrap_loop_snoc.
  destruct (wrap_loop measure maxWidth words) as [lines currentLine].
  cbn [fst] in IH.
  destruct (wrap_step_cases measure maxWidth lines currentLine word)
    as [[[_ Hne] ->]|[_ ->]]; cbn [fst]; [|exact IH].
  apply Forall_app. split; [exact IH|]. constructor; [exact Hne | constructor].
Qed.

Lemma wrap_loop_count words :
  (length (wrap_loop measure maxWidth words).1
   + (if truthy_string (wrap_loop measure maxWidth words).2 then 1 else 0)
   <= length words)%nat.
Proof.
  induction words as [|word words IH] using rev_ind; [simpl; lia|].
  rewrite wrap_loop_snoc, length_app.
  destruct (wrap_loop measure maxWidth words) as [lines currentLine].
  cbn [fst snd] in IH.
  destruct (wrap_step_cases measure maxWidth lines currentLine word)
    as [[[_ Hne] ->]|[_ ->]]; cbn [fst snd length].
  - apply truthy_string_true in Hne. rewrite Hne in IH.
    rewrite length_app. simpl. destruct (truthy_string word); lia.
  - destruct (truthy_string currentLine), (truthy_string (testLineOf currentLine word));
      simpl; lia.
Qed.

Lemma wrap_loop_blank words :
  Forall (fun word => word = EmptyString) words ->
  wrap_loop measure maxWidth words = ([], EmptyString).
Proof.
  induction words as [|word words IH] using rev_ind; intros Hblank; [reflexivity|].
  apply Forall_app in Hblank as [Hwords Hword].
  inversion Hword as [|? ? -> _]; subst.
  rewrite wrap_loop_snoc, IH by exact Hwords.
  apply wrap_step_empty_line.
Qed.

Lemma join_first_nonempty first others :
  first <> EmptyString -> join (first :: others) <> EmptyString.
Proof.
  intros Hne. destruct others as [|second others]; [exact Hne|].
  rewrite join_cons by discriminate.
  destruct first; [congruence | rewrite append_cons; discriminate].
Qed.

Lemma wrap_loop_one_line first others :
  first <> EmptyString ->
  (forall done rest,
      first :: others = done ++ rest -> done <> [] ->
      measure (join done) <= maxWidth) ->
  forall done rest,
    first :: others = done ++ rest -> done <> [] ->
    wrap_loop measure maxWidth done = ([], join done).
Proof.
  intros Hfirst Hfits done.
  induction done as [|word done IH] using rev_ind; [congruence|].
  intros rest Hsplit _. rewrite wrap_loop_snoc.
  destruct done as [|first' done'].
  - change (wrap_loop measure maxWidth []) with (@nil string, EmptyString).
    apply wrap_step_empty_line.
  - rewrite <- app_assoc in Hsplit.
    rewrite (IH ([word] ++ rest)) by (exact Hsplit || discriminate).
    assert (Hhead : first' = first) by (simpl in Hsplit; congruence).
    subst first'.
    rewrite wrap_step_fit.
    + rewrite <- join_snoc by discriminate. reflexivity.
    + apply join_first_nonempty, Hfirst.
    + rewrite <- join_snoc by discriminate.
      apply (Hfits ((first :: done') ++ [word]) rest).
      * rewrite <- app_assoc. exact Hsplit.
      * destruct done'; discriminate.
Qed.

(** No line of a wrapped text is empty. *)
Theorem wrapText_no_blank_line (text : string) :
  Forall (fun line => line <> EmptyString) (wrapText measure text maxWidth).
Proof.
  rewrite wrapText_unfold. apply Forall_app. split; [apply wrap_loop_no_blank|].
  destruct (truthy_string _) eqn:Htruthy; constructor; [|constructor].
  apply truthy_string_true, Htruthy.
Qed.

(** A wrapped text has at most as many lines as the text has words. *)
Theorem wrapText_length (text : string) :
  (length (wrapText measure text maxWidth) <= length (split text))%nat.
Proof.
  rewrite wrapText_unfold, length_app.
  pose proof (wrap_loop_count (split text)) as Hcount.
  destruct (truthy_string _); simpl in *; lia.
Qed.

(** A text of spaces only, and the empty text, have no line. *)
Theorem wrapText_blank (text : string) :
  Forall (fun word => word = EmptyString) (split text) ->
  wrapText measure text maxWidth = [].
Proof.
  intros Hblank. rewrite wrapText_unfold, wrap_loop_blank by exact Hblank.
  reflexivity.
Qed.

(** A text that does not begin with a space, and of which the first words
    fit on a line however many are taken, is its only line. *)
Theorem wrapText_one_line (text : string) :
  head (split text) <> Some EmptyString ->
  (forall done rest,
      split text = done ++ rest -> done <> [] ->
      measure (join done) <= maxWidth) ->
  wrapText measure text maxWidth = [text].
Proof.
  intros Hhead Hfits.
  destruct (split text) as [|first others] eqn:Hsplit;
    [destruct (split_not_nil _ Hsplit)|].
  assert (Hfirst : first <> EmptyString) by (simpl in Hhead; congruence).
  rewrite wrapText_unfold, Hsplit.
  rewrite (wrap_loop_one_line first others Hfirst Hfits (first :: others) []);
    [|by rewrite app_nil_r|discriminate].
  cbn [fst snd app].
  pose proof (join_first_nonempty first others Hfirst) as Hjoin.
  apply truthy_string_true in Hjoin. rewrite Hjoin.
  rewrite <- Hsplit, join_split. reflexivity.
Qed.
End WrapTextLines.

Lemma wrapText_blank_witness : wrapText (fun _ => 0) "   " 100 = [].
Proof.
  apply (wrapText_blank (fun _ => 0) 100 "   ").
  repeat constructor.
Defined.

Lemma wrapText_one_line_witness : wrapText (fun _ => 0) "a b c" 100 = ["a b c"].
Proof.
  apply (wrapText_one_line (fun _ => 0) 100 "a b c").
  - discriminate.
  - intros done rest _ _. lra.
Defined.

(** ** The layout of the overlay *)

Lemma draws_forEachFrom_imap {A} (g : nat -> A -> CanvasCall) index (l : list A) :
  draws (forEachFrom index l (fun item i => call (g i item)))
    (imap (fun i => g (index + i)%nat) l).
Proof.
  revert index. induction l as [|item l IH]; intros index; simpl.
  - apply draws_ret.
  - rewrite Nat.add_0_r. apply draws_bind_call.
    erewrite imap_ext; [apply (IH (S index))|].
    intros i a _. simpl. f_equal. lia.
Qed.

Lemma draws_forEach_imap {A} (g : nat -> A -> CanvasCall) (l : list A) :
  draws (forEach l (fun item i => call (g i item))) (imap g l).
Proof. apply (draws_forEachFrom_imap g 0 l). Qed.

Lemma flat_map_imap_nil {A B C} (h : B -> list C) (g : nat -> A -> B) (l : list A) :
  (forall i a, h (g i a) = []) -> flat_map h (imap g l) = [].
Proof.
  revert g. induction l as [|a l IH]; intros g Hg; simpl; [reflexivity|].
  rewrite Hg, IH; [reflexivity|]. intros i a'. apply Hg.
Qed.

Lemma flat_map_imap_one {A B C} (h : B -> list C) (g : nat -> A -> B)
    (k : nat -> A -> C) (l : list A) :
  (forall i a, h (g i a) = [k i a]) -> flat_map h (imap g l) = imap k l.
Proof.
  revert g k. induction l as [|a l IH]; intros g k Hg; simpl; [reflexivity|].
  rewrite Hg. simpl. f_equal. apply IH. intros i a'. apply Hg.
Qed.

Lemma filter_imap_nil {A B} (p : B -> bool) (g : nat -> A -> B) (l : list A) :
  (forall i a, p (g i a) = false) -> List.filter p (imap g l) = [].
Proof.
  revert g. induction l as [|a l IH]; intros g Hg; simpl; [reflexivity|].
  rewrite Hg. apply IH. intros i a'. apply Hg.
Qed.

Lemma flat_map_none {A B} (h : A -> list B) (l : list A) :
  Forall (fun a => h a = []) l -> flat_map h l = [].
Proof.
  induction 1 as [|a l Ha _ IH]; [reflexivity|]. simpl. rewrite Ha, IH. reflexivity.
Qed.

Lemma filter_none {A} (p : A -> bool) (l : list A) :
  Forall (fun a => p a = false) l -> List.filter p l = [].
Proof.
  induction 1 as [|a l Ha _ IH]; [reflexivity|]. simpl. rewrite Ha. exact IH.
Qed.

(** The calls that draw the mesh are seen by none of the observers. *)
Lemma mesh_unobserved cs :
  Forall (fun c => isMeshCall c = true) cs ->
  drawnLines cs = [] /\ bubbleRects cs = [] /\ tailPath cs = []
  /\ List.filter isSaveCall cs = [] /\ List.filter isRestoreCall cs = [].
Proof.
  intros Hmesh.
  repeat split;
    (apply flat_map_none || apply filter_none);
    (eapply Forall_impl; [exact Hmesh|]);
    intros c Hc; destruct c; try discriminate; reflexivity.
Qed.

(** The marker: one circle of radius 6 at the anchor, in the colour of the
    face. *)
Lemma drawForehead_layout forehead cw ch active :
  exists cs,
    draws (drawForehead (Some forehead) cw ch active) cs
    /\ List.filter isMarkerCall cs
       = [Arc (forehead.(x) * cw) (forehead.(y) * ch) 6 0 (2 * PI)]
    /\ In (SetFillStyle (Color (if active then "#ADD8E6" else "#AAAAAA"))) cs
    /\ drawnLines cs = [] /\ bubbleRects cs = [] /\ tailPath cs = []
    /\ List.filter isSaveCall cs = [] /\ List.filter isRestoreCall cs = [].
Proof.
  eexists. split.
  - unfold drawForehead, prop, drawSphere. rewrite !bind_ret_l.
    repeat apply draws_bind_call. apply draws_call.
  - repeat split; try reflexivity. simpl. tauto.
Qed.

(** The caption: the bubble, its tail, and the lines of the wrapped text,
    between a save and a restore of the context. *)
Lemma drawCaption_layout measureText forehead cw ch caption active :
  truthy_string caption.(text) = true ->
  let cx := forehead.(x) * cw in
  let cy := forehead.(y) * ch in
  let lines := wrapText (measureText captionFont) caption.(text) (300 - 40) in
  let textHeight := Rmax (20 * INR (length lines) + 20) 46 in
  exists cs,
    draws (drawCaption measureText (Some forehead) cw ch caption active) cs
    /\ drawnLines cs
       = imap (fun index line =>
                 (line, - cx, cy - (textHeight + 50) + INR index * 20 + 20 / 2 + 10))
           lines
    /\ bubbleRects cs = [(cx - 300 / 2, cy - (textHeight + 50), 300, textHeight)]
    /\ tailPath cs
       = [(cx - 12, cy - (textHeight + 50) + textHeight);
          (cx, cy - (textHeight + 50) + textHeight + 12);
          (cx + 12, cy - (textHeight + 50) + textHeight)]
    /\ List.filter isSaveCall cs = [Save]
    /\ List.filter isRestoreCall cs = [Restore]
    /\ List.filter isMarkerCall cs = [].
Proof.
  intros Htext cx cy lines textHeight.
  eexists. split.
  - unfold drawCaption, prop. rewrite Htext. rewrite !bind_ret_l. cbv zeta.
    repeat apply draws_bind_call.
    eapply draws_bind; [apply draws_forEach_imap|].
    apply draws_bind_call. apply draws_call.
  - unfold drawnLines, bubbleRects, tailPath.
    cbn [flat_map List.filter isSaveCall isRestoreCall isMarkerCall app].
    rewrite !flat_map_app, !List.filter_app.
    rewrite (flat_map_imap_one _ _
               (fun index line =>
                  (line, - cx, cy - (textHeight + 50) + INR index * 20 + 20 / 2 + 10)))
      by reflexivity.
    rewrite !flat_map_imap_nil by reflexivity.
    rewrite !filter_imap_nil by reflexivity.
    cbn [flat_map List.filter isSaveCall isRestoreCall isMarkerCall app].
    rewrite app_nil_r. repeat split; reflexivity.
Qed.

(** What the renderer draws for a face with the anchor landmark: the mesh,
    the marker, and, with a caption text, the caption. *)
Lemma FaceMeshRenderer_layout measureText lms cw ch caption isActiveFace forehead :
  lms !! 10%nat = Some forehead ->
  let cx := forehead.(x) * cw in
  let cy := forehead.(y) * ch in
  let lines := wrapText (measureText captionFont) caption.(text) (300 - 40) in
  let textHeight := Rmax (20 * INR (length lines) + 20) 46 in
  exists cs,
    draws (FaceMeshRenderer measureText lms cw ch caption isActiveFace) cs
    /\ List.filter isMarkerCall cs = [Arc cx cy 6 0 (2 * PI)]
    /\ In (SetFillStyle
             (Color (if default true isActiveFace then "#ADD8E6" else "#AAAAAA"))) cs
    /\ if truthy_string caption.(text)
       then
         drawnLines cs
         = imap (fun index line =>
                   (line, - cx, cy - (textHeight + 50) + INR index * 20 + 20 / 2 + 10))
             lines
         /\ bubbleRects cs
            = [(cx - 300 / 2, cy - (textHeight + 50), 300, textHeight)]
         /\ tailPath cs
            = [(cx - 12, cy - (textHeight + 50) + textHeight);
               (cx, cy - (textHeight + 50) + textHeight + 12);
               (cx + 12, cy - (textHeight + 50) + textHeight)]
         /\ List.filter isSaveCall cs = [Save]
         /\ List.filter isRestoreCall cs = [Restore]
       else
         drawnLines cs = [] /\ bubbleRects cs = [] /\ tailPath cs = []
         /\ List.filter isSaveCall cs = [] /\ List.filter isRestoreCall cs = [].
Proof.
  intros Hanchor cx cy lines textHeight.
  destruct (drawMesh_draws lms) as (mesh & Hmesh & Hmeshcalls).
  destruct (mesh_unobserved mesh Hmeshcalls) as (Hm1 & Hm2 & Hm3 & Hm4 & Hm5).
  pose proof (markers_mesh mesh Hmeshcalls) as Hm6.
  destruct (drawForehead_layout forehead cw ch (default true isActiveFace))
    as (marker & Hmarker & Hk0 & Hcolor & Hk1 & Hk2 & Hk3 & Hk4 & Hk5).
  unfold FaceMeshRenderer. cbv zeta. rewrite Hanchor.
  unfold when. cbn [truthy andb].
  destruct (truthy_string caption.(text)) eqn:Htext.
  - destruct (drawCaption_layout measureText forehead cw ch caption
                (default true isActiveFace) Htext)
      as (bubble & Hbubble & Hb1 & Hb2 & Hb3 & Hb4 & Hb5 & Hb6).
    exists (mesh ++ marker ++ bubble). split; [|split; [|split]].
    + apply draws_bind; [exact Hmesh|].
      apply draws_bind; [exact Hmarker | exact Hbubble].
    + rewrite !List.filter_app, Hm6, Hk0, Hb6. reflexivity.
    + apply in_or_app. right. apply in_or_app. left. exact Hcolor.
    + unfold drawnLines, bubbleRects, tailPath in *.
      rewrite !flat_map_app, !List.filter_app.
      rewrite Hm1, Hm2, Hm3, Hm4, Hm5, Hk1, Hk2, Hk3, Hk4, Hk5,
        Hb1, Hb2, Hb3, Hb4, Hb5.
      repeat split; reflexivity.
  - exists (mesh ++ marker ++ []). split; [|split; [|split]].
    + apply draws_bind; [exact Hmesh|].
      apply draws_bind; [exact Hmarker | apply draws_ret].
    + rewrite !List.filter_app, Hm6, Hk0. reflexivity.
    + apply in_or_app. right. apply in_or_app. left. exact Hcolor.
    + unfold drawnLines, bubbleRects, tailPath in *.
      rewrite !flat_map_app, !List.filter_app.
      rewrite Hm1, Hm2, Hm3, Hm4, Hm5, Hk1, Hk2, Hk3, Hk4, Hk5.
      repeat split; reflexivity.
Qed.

(** What a piece of code draws is determined. *)
Lemma draws_unique (m : Js unit) cs1 cs2 : draws m cs1 -> draws m cs2 -> cs1 = cs2.
Proof.
  intros H1 H2. specialize (H1 emptyWorld). rewrite (H2 emptyWorld) in H1.
  simpl in H1. congruence.
Qed.

(** The calls of the marker, in their order. *)
Lemma drawForehead_calls forehead cw ch active :
  draws (drawForehead (Some forehead) cw ch active)
    [BeginPath;
     Arc (forehead.(x) * cw) (forehead.(y) * ch) 6 0 (2 * PI);
     SetFillStyle (Color (if active then "#ADD8E6" else "#AAAAAA"));
     Fill;
     SetStrokeStyle "white";
     SetLineWidth 2;
     Stroke].
Proof.
  unfold drawForehead, prop, drawSphere. rewrite !bind_ret_l.
  repeat apply draws_bind_call. apply draws_call.
Qed.

Lemma scaleCalls_mesh cs :
  Forall (fun c => isMeshCall c = true) cs -> scaleCalls cs = [].
Proof.
  intros Hmesh. apply flat_map_none.
  eapply Forall_impl; [exact Hmesh|].
  intros c Hc; destruct c; try discriminate; reflexivity.
Qed.

(** With the anchor landmark, the calls of the marker come after the mesh
    and before the caption. *)
Lemma FaceMeshRenderer_marker_path measureText lms cw ch caption isActiveFace forehead :
  lms !! 10%nat = Some forehead ->
  exists mesh after,
    draws (FaceMeshRenderer measureText lms cw ch caption isActiveFace)
      (mesh
       ++ [BeginPath;
           Arc (forehead.(x) * cw) (forehead.(y) * ch) 6 0 (2 * PI);
           SetFillStyle
             (Color (if default true isActiveFace then "#ADD8E6" else "#AAAAAA"));
           Fill;
           SetStrokeStyle "white";
           SetLineWidth 2;
           Stroke]
       ++ after)
    /\ Forall (fun c => isMeshCall c = true) mesh.
Proof.
  intros Hanchor.
  destruct (drawMesh_draws lms) as (mesh & Hmesh & Hmeshcalls).
  pose proof (drawForehead_calls forehead cw ch (default true isActiveFace))
    as Hmarker.
  unfold FaceMeshRenderer. cbv zeta. rewrite Hanchor.
  unfold when. cbn [truthy andb].
  destruct (truthy_string caption.(text)) eqn:Htext.
  - destruct (drawCaption_draws measureText forehead cw ch caption
                (default true isActiveFace) Htext) as (bubble & Hbubble & _).
    exists mesh, bubble. split; [|exact Hmeshcalls].
    apply draws_bind; [exact Hmesh|].
    apply draws_bind; [exact Hmarker | exact Hbubble].
  - exists mesh, []. split; [|exact Hmeshcalls].
    apply draws_bind; [exact Hmesh|].
    apply draws_bind; [exact Hmarker | apply draws_ret].
Qed.

(** With the anchor landmark, the renderer draws one marker, after the
    mesh: it begins a path, adds the one circle it ever draws, of radius 6
    at the anchor scaled to the canvas, sets the fill style, light blue for
    the active face, also when the flag is left out, and grey for another
    face, fills the circle, and strokes it in white, 2 wide. *)
Theorem FaceMeshRenderer_marker
    (measureText : string -> string -> R) (lms : list FaceLandmark)
    (canvasWidth canvasHeight : R) (caption : Caption)
    (isActiveFace : option bool) (forehead : FaceLandmark) :
  lms !! 10%nat = Some forehead ->
  let circle :=
    Arc (forehead.(x) * canvasWidth) (forehead.(y) * canvasHeight) 6 0 (2 * PI) in
  let colour :=
    match isActiveFace with Some false => "#AAAAAA" | _ => "#ADD8E6" end in
  exists cs mesh after,
    draws (FaceMeshRenderer measureText lms canvasWidth canvasHeight caption
             isActiveFace) cs
    /\ cs = mesh
            ++ [BeginPath; circle; SetFillStyle (Color colour); Fill;
                SetStrokeStyle "white"; SetLineWidth 2; Stroke]
            ++ after
    /\ Forall (fun c => isMeshCall c = true) mesh
    /\ List.filter isMarkerCall cs = [circle].
Proof.
  intros Hanchor circle colour.
  destruct (FaceMeshRenderer_layout measureText lms canvasWidth canvasHeight
              caption isActiveFace forehead Hanchor)
    as (cs & Hdraws & Hmarker & _).
  destruct (FaceMeshRenderer_marker_path measureText lms canvasWidth canvasHeight
              caption isActiveFace forehead Hanchor)
    as (mesh & after & Hpath & Hmesh).
  exists cs, mesh, after. split; [exact Hdraws|].
  split; [|split; [exact Hmesh | exact Hmarker]].
  rewrite (draws_unique _ _ _ Hdraws Hpath).
  unfold colour. destruct isActiveFace as [[|]|]; reflexivity.
Qed.

Lemma FaceMeshRenderer_marker_witness :
  let forehead := mkFaceLandmark (1 / 2) (1 / 4) 0 in
  let lms := replicate 11 forehead in
  let circle := Arc (forehead.(x) * 640) (forehead.(y) * 480) 6 0 (2 * PI) in
  exists cs mesh after,
    draws (FaceMeshRenderer (fun _ _ => 0) lms 640 480 (mkCaption "" 0) None) cs
    /\ cs = mesh
            ++ [BeginPath; circle; SetFillStyle (Color "#ADD8E6"); Fill;
                SetStrokeStyle "white"; SetLineWidth 2; Stroke]
            ++ after
    /\ Forall (fun c => isMeshCall c = true) mesh
    /\ List.filter isMarkerCall cs = [circle].
Proof.
  intros forehead lms.
  apply (FaceMeshRenderer_marker (fun _ _ => 0) lms 640 480 (mkCaption "" 0)
           None forehead).
  reflexivity.
Defined.

Lemma imap_texts {A B C} (p : nat -> A -> B) (q : nat -> A -> C) (l : list A) :
  map (fun t : A * B * C => t.1.1) (imap (fun i a => (a, p i a, q i a)) l) = l.
Proof.
  revert p q. induction l as [|a l IH]; intros p q; simpl; [reflexivity|].
  f_equal. apply (IH (fun i => p (S i)) (fun i => q (S i))).
Qed.

(** With the anchor landmark and a caption text, the lines of text the
    renderer draws are the lines of the wrapped text, in their order; for a
    text without a leading, trailing or doubled space they read, joined by
    spaces, as the caption text. *)
Theorem FaceMeshRenderer_texts
    (measureText : string -> string -> R) (lms : list FaceLandmark)
    (canvasWidth canvasHeight : R) (caption : Caption)
    (isActiveFace : option bool) :
  is_Some (lms !! 10%nat) -> caption.(text) <> EmptyString ->
  exists cs,
    draws (FaceMeshRenderer measureText lms canvasWidth canvasHeight caption
             isActiveFace) cs
    /\ map (fun t : string * R * R => t.1.1) (drawnLines cs)
       = wrapText (measureText captionFont) caption.(text) (300 - 40)
    /\ (Forall (fun word => word <> EmptyString) (split caption.(text)) ->
        join (map (fun t : string * R * R => t.1.1) (drawnLines cs))
        = caption.(text)).
Proof.
  intros [forehead Hanchor] Htext. apply truthy_string_true in Htext.
  destruct (FaceMeshRenderer_layout measureText lms canvasWidth canvasHeight
              caption isActiveFace forehead Hanchor)
    as (cs & Hdraws & _ & _ & Hcaption).
  rewrite Htext in Hcaption. destruct Hcaption as (Hlines & _).
  exists cs. split; [exact Hdraws|].
  assert (Htexts : map (fun t : string * R * R => t.1.1) (drawnLines cs)
                   = wrapText (measureText captionFont) caption.(text) (300 - 40)).
  { rewrite Hlines. apply imap_texts. }
  split; [exact Htexts|].
  intros Hwords. rewrite Htexts. apply wrapText_join, Hwords.
Qed.

Lemma FaceMeshRenderer_texts_witness :
  let lms := replicate 11 (mkFaceLandmark (1 / 2) (1 / 4) 0) in
  let caption := mkCaption "hello there" 0 in
  exists cs,
    draws (FaceMeshRenderer (fun _ _ => 0) lms 640 480 caption None) cs
    /\ map (fun t : string * R * R => t.1.1) (drawnLines cs)
       = wrapText (fun _ => 0) "hello there" (300 - 40)
    /\ (Forall (fun word => word <> EmptyString) (split "hello there") ->
        join (map (fun t : string * R * R => t.1.1) (drawnLines cs))
        = "hello there").
Proof.
  intros lms caption.
  apply (FaceMeshRenderer_texts (fun _ _ => 0) lms 640 480 caption None).
  - eexists. reflexivity.
  - discriminate.
Defined.

Lemma map_imap {A B C} (f : B -> C) (g : nat -> A -> B) (l : list A) :
  map f (imap g l) = imap (fun i a => f (g i a)) l.
Proof.
  revert g. induction l as [|a l IH]; intros g; simpl; [reflexivity|].
  f_equal. apply (IH (fun i => g (S i))).
Qed.

(** The caption ends with the lines of text, drawn between two mirrorings
    of the context, and with the restoring of the context; before the first
    mirroring it neither scales the context nor draws text. *)
Lemma drawCaption_mirror measureText forehead cw ch caption active :
  truthy_string caption.(text) = true ->
  let cx := forehead.(x) * cw in
  let cy := forehead.(y) * ch in
  let lines := wrapText (measureText captionFont) caption.(text) (300 - 40) in
  let textHeight := Rmax (20 * INR (length lines) + 20) 46 in
  exists before,
    draws (drawCaption measureText (Some forehead) cw ch caption active)
      (before
       ++ Scale (-1) 1
          :: imap (fun index line =>
                     FillText line (- cx)
                       (cy - (textHeight + 50) + INR index * 20 + 20 / 2 + 10))
               lines
          ++ [Scale (-1) 1; Restore])
    /\ scaleCalls before = [] /\ drawnLines before = [].
Proof.
  intros Htext cx cy lines textHeight.
  assert (Hcalls : exists cs,
    draws (drawCaption measureText (Some forehead) cw ch caption active) cs
    /\ skipn 22 cs
       = Scale (-1) 1
         :: imap (fun index line =>
                    FillText line (- cx)
                      (cy - (textHeight + 50) + INR index * 20 + 20 / 2 + 10))
              lines
         ++ [Scale (-1) 1; Restore]
    /\ scaleCalls (firstn 22 cs) = [] /\ drawnLines (firstn 22 cs) = []).
  { eexists. split.
    - unfold drawCaption, prop. rewrite Htext. rewrite !bind_ret_l. cbv zeta.
      repeat apply draws_bind_call.
      eapply draws_bind; [apply draws_forEach_imap|].
      apply draws_bind_call. apply draws_call.
    - repeat split; reflexivity. }
  destruct Hcalls as (cs & Hdraws & Hskip & Hscale & Hlines).
  exists (firstn 22 cs). rewrite <- Hskip, firstn_skipn. auto.
Qed.

(** The same of the renderer as a whole, for a face with the anchor
    landmark and a caption text. *)
Lemma FaceMeshRenderer_mirror measureText lms cw ch caption isActiveFace forehead :
  lms !! 10%nat = Some forehead ->
  truthy_string caption.(text) = true ->
  let cx := forehead.(x) * cw in
  let cy := forehead.(y) * ch in
  let lines := wrapText (measureText captionFont) caption.(text) (300 - 40) in
  let textHeight := Rmax (20 * INR (length lines) + 20) 46 in
  exists before,
    draws (FaceMeshRenderer measureText lms cw ch caption isActiveFace)
      (before
       ++ Scale (-1) 1
          :: imap (fun index line =>
                     FillText line (- cx)
                       (cy - (textHeight + 50) + INR index * 20 + 20 / 2 + 10))
               lines
          ++ [Scale (-1) 1; Restore])
    /\ scaleCalls before = [] /\ drawnLines before = [].
Proof.
  intros Hanchor Htext cx cy lines textHeight.
  destruct (drawMesh_draws lms) as (mesh & Hmesh & Hmeshcalls).
  pose proof (drawForehead_calls forehead cw ch (default true isActiveFace))
    as Hmarker.
  destruct (drawCaption_mirror measureText forehead cw ch caption
              (default true isActiveFace) Htext)
    as (before & Hcaption & Hscale & Hlines).
  set (marker := [BeginPath; _; _; Fill; _; _; Stroke]) in Hmarker.
  exists (mesh ++ marker ++ before). split; [|split].
  - unfold FaceMeshRenderer. cbv zeta. rewrite Hanchor, Htext.
    unfold when. cbn [truthy andb].
    rewrite <- !app_assoc.
    apply draws_bind; [exact Hmesh|].
    apply draws_bind; [exact Hmarker | exact Hcaption].
  - unfold scaleCalls in *. rewrite !flat_map_app, Hscale.
    fold (scaleCalls mesh). rewrite (scaleCalls_mesh mesh Hmeshcalls).
    reflexivity.
  - destruct (mesh_unobserved mesh Hmeshcalls) as (Hmeshlines & _).
    unfold drawnLines in *. rewrite !flat_map_app, Hlines, Hmeshlines.
    reflexivity.
Qed.

(** With the anchor landmark and a caption text, the renderer draws one
    bubble, 300 wide and at least 46 high, centred above the anchor, with
    its lower edge 50 above the anchor however many lines it holds; the
    tail hangs from this edge and ends 38 above the anchor; and every line of
    text is drawn at the mirrored anchor abscissa, between 20 below the
    upper edge and 20 above the lower edge of the bubble. The lines of text
    are the last things drawn: the renderer mirrors the context, which it
    has not scaled before, draws the lines and nothing else, mirrors the
    context back and restores it. *)
Theorem FaceMeshRenderer_bubble_geometry
    (measureText : string -> string -> R) (lms : list FaceLandmark)
    (canvasWidth canvasHeight : R) (caption : Caption)
    (isActiveFace : option bool) (forehead : FaceLandmark) :
  lms !! 10%nat = Some forehead -> caption.(text) <> EmptyString ->
  let cx := forehead.(x) * canvasWidth in
  let cy := forehead.(y) * canvasHeight in
  exists cs top height,
    draws (FaceMeshRenderer measureText lms canvasWidth canvasHeight caption
             isActiveFace) cs
    /\ bubbleRects cs = [(cx - 150, top, 300, height)]
    /\ 46 <= height
    /\ top + height = cy - 50
    /\ tailPath cs = [(cx - 12, cy - 50); (cx, cy - 38); (cx + 12, cy - 50)]
    /\ Forall (fun t : string * R * R =>
                 t.1.2 = - cx /\ top + 20 <= t.2 <= top + height - 20)
         (drawnLines cs)
    /\ exists before,
         cs = before
              ++ Scale (-1) 1
                 :: map fillTextCall (drawnLines cs)
                 ++ [Scale (-1) 1; Restore]
         /\ scaleCalls before = []
         /\ drawnLines before = [].
Proof.
  intros Hanchor Htext cx cy. apply truthy_string_true in Htext.
  destruct (FaceMeshRenderer_layout measureText lms canvasWidth canvasHeight
              caption isActiveFace forehead Hanchor)
    as (cs & Hdraws & _ & _ & Hcaption).
  destruct (FaceMeshRenderer_mirror measureText lms canvasWidth canvasHeight
              caption isActiveFace forehead Hanchor Htext)
    as (before & Hmirror & Hscale & Hnotext).
  rewrite Htext in Hcaption.
  destruct Hcaption as (Hlines & Hrect & Htail & _).
  fold cx in Hlines, Hrect, Htail, Hmirror.
  fold cy in Hlines, Hrect, Htail, Hmirror.
  set (lines := wrapText (measureText captionFont) caption.(text) (300 - 40)) in *.
  set (height := Rmax (20 * INR (length lines) + 20) 46) in *.
  exists cs, (cy - (height + 50)), height.
  split; [exact Hdraws|]. split; [|split; [|split; [|split; [|split]]]].
  - rewrite Hrect. replace (cx - 300 / 2) with (cx - 150) by lra. reflexivity.
  - apply Rmax_r.
  - lra.
  - rewrite Htail.
    replace (cy - (height + 50) + height + 12) with (cy - 38) by lra.
    replace (cy - (height + 50) + height) with (cy - 50) by lra.
    reflexivity.
  - rewrite Hlines. apply Forall_lookup. intros index t Ht.
    rewrite list_lookup_imap in Ht.
    destruct (lines !! index) as [line|] eqn:Hline; [|discriminate].
    injection Ht as <-. cbn [fst snd].
    apply lookup_lt_Some in Hline.
    assert (Hindex : INR index + 1 <= INR (length lines))
      by (rewrite <- S_INR; apply le_INR; lia).
    pose proof (pos_INR index) as Hpos.
    pose proof (Rmax_l (20 * INR (length lines) + 20) 46) as Hheight.
    fold height in Hheight.
    split; [reflexivity|]. split; lra.
  - exists before. split; [|split; [exact Hscale | exact Hnotext]].
    rewrite Hlines, map_imap. unfold fillTextCall. cbn [fst snd].
    apply (draws_unique _ _ _ Hdraws Hmirror).
Qed.

Lemma FaceMeshRenderer_bubble_geometry_witness :
  let forehead := mkFaceLandmark (1 / 2) (1 / 4) 0 in
  let lms := replicate 11 forehead in
  let caption := mkCaption "hello there" 0 in
  let cx := forehead.(x) * 640 in
  let cy := forehead.(y) * 480 in
  exists cs top height,
    draws (FaceMeshRenderer (fun _ _ => 0) lms 640 480 caption None) cs
    /\ bubbleRects cs = [(cx - 150, top, 300, height)]
    /\ 46 <= height
    /\ top + height = cy - 50
    /\ tailPath cs = [(cx - 12, cy - 50); (cx, cy - 38); (cx + 12, cy - 50)]
    /\ Forall (fun t : string * R * R =>
                 t.1.2 = - cx /\ top + 20 <= t.2 <= top + height - 20)
         (drawnLines cs)
    /\ exists before,
         cs = before
              ++ Scale (-1) 1
                 :: map fillTextCall (drawnLines cs)
                 ++ [Scale (-1) 1; Restore]
         /\ scaleCalls before = []
         /\ drawnLines before = [].
Proof.
  intros forehead lms caption.
  apply (FaceMeshRenderer_bubble_geometry (fun _ _ => 0) lms 640 480 caption
           None forehead).
  - reflexivity.
  - discriminate.
Defined.

(** The renderer restores the context as often as it saves it: at most
    once, around the caption. *)
Theorem FaceMeshRenderer_balanced
    (measureText : string -> string -> R) (lms : list FaceLandmark)
    (canvasWidth canvasHeight : R) (caption : Caption)
    (isActiveFace : option bool) :
  exists cs,
    draws (FaceMeshRenderer measureText lms canvasWidth canvasHeight caption
             isActiveFace) cs
    /\ length (List.filter isSaveCall cs) = length (List.filter isRestoreCall cs)
    /\ (length (List.filter isSaveCall cs) <= 1)%nat.
Proof.
  destruct (lms !! 10%nat) as [forehead|] eqn:Hanchor.
  - destruct (FaceMeshRenderer_layout measureText lms canvasWidth canvasHeight
                caption isActiveFace forehead Hanchor)
      as (cs & Hdraws & _ & _ & Hcaption).
    exists cs. split; [exact Hdraws|].
    destruct (truthy_string caption.(text)).
    + destruct Hcaption as (_ & _ & _ & -> & ->). simpl. lia.
    + destruct Hcaption as (_ & _ & _ & -> & ->). simpl. lia.
  - destruct (FaceMeshRenderer_draws measureText lms canvasWidth canvasHeight
                caption isActiveFace) as (cs & Hdraws & Hcases).
    rewrite Hanchor in Hcases.
    exists cs. split; [exact Hdraws|].
    destruct (mesh_unobserved cs Hcases) as (_ & _ & _ & -> & ->).
    simpl. lia.
Qed.

(** ** The pass as a whole *)

Lemma performs_call c : performs (call c) [c] [].
Proof. intros [cs es]. unfold call. simpl. rewrite app_nil_r. reflexivity. Qed.

Lemma performs_call_then c (k : unit -> Js unit) cs es :
  performs (k tt) cs es -> performs (bind (call c) k) (c :: cs) es.
Proof.
  intros Hk w. unfold bind, call. rewrite Hk. simpl.
  rewrite <- app_assoc. reflexivity.
Qed.

Lemma performs_emit_then e (k : unit -> Js unit) cs es :
  performs (k tt) cs es -> performs (bind (emit e) k) cs (e :: es).
Proof.
  intros Hk w. unfold bind, emit. rewrite Hk. simpl.
  rewrite <- app_assoc. reflexivity.
Qed.

Lemma performs_draws_then (m : Js unit) (k : unit -> Js unit) cs1 cs2 es :
  draws m cs1 -> performs (k tt) cs2 es -> performs (bind m k) (cs1 ++ cs2) es.
Proof.
  intros Hm Hk w. unfold bind. rewrite Hm, Hk. simpl.
  rewrite app_assoc. reflexivity.
Qed.

(** A loop whose body only draws only draws; what holds of the calls of
    each turn, of no call, and of calls put end to end, holds of its
    calls. *)
Lemma draws_forEachFrom_closed {A} (Q : list CanvasCall -> Prop)
    (f : A -> nat -> Js unit) index (l : list A) :
  Q [] -> (forall cs1 cs2, Q cs1 -> Q cs2 -> Q (cs1 ++ cs2)) ->
  (forall item i, exists cs, draws (f item i) cs /\ Q cs) ->
  exists cs, draws (forEachFrom index l f) cs /\ Q cs /\ (l = [] -> cs = []).
Proof.
  intros Hnil Happ Hf. revert index.
  induction l as [|item l IH]; intros index; simpl.
  - exists []. split; [apply draws_ret|]. auto.
  - destruct (Hf item index) as (cs1 & Hcs1 & HQ1).
    destruct (IH (S index)) as (cs2 & Hcs2 & HQ2 & _).
    exists (cs1 ++ cs2). split; [apply draws_bind; assumption|].
    split; [apply Happ; assumption | discriminate].
Qed.

(** What a pass does after the two early returns: it never throws; it
    saves the context, clears the canvas and mirrors it, draws the faces,
    and restores the context; it tells the selected id when this is not the
    active id, and then the records of the pass. The drawing of the faces
    restores the context as often as it saves it, and is empty without a
    face. *)
Lemma processFrame_performs measureText w h clock history activeFaceId
    latestCaption multiFaceLandmarks :
  let sets := default [] multiFaceLandmarks in
  let speaking := speakingFaceOf clock history activeFaceId multiFaceLandmarks in
  exists cs,
    performs (processFrame measureText w h clock history activeFaceId
                latestCaption multiFaceLandmarks).2
      ([Save; ClearRect 0 0 w h; Scale (-1) 1; Translate (- w) 0]
         ++ cs ++ [Restore])
      ((if bool_decide (speaking = activeFaceId) then []
        else [OnActiveFaceChange speaking])
         ++ [SetFaces (updateFaces clock history 0 sets).2])
    /\ length (List.filter isSaveCall cs) = length (List.filter isRestoreCall cs)
    /\ (sets = [] -> cs = []).
Proof.
  intros sets speaking. unfold speaking, speakingFaceOf, processFrame.
  fold sets.
  destruct (updateFaces clock history 0 sets) as [history' updatedFaces].
  cbn [fst snd].
  set (selected := determineSpeakingFace _ activeFaceId updatedFaces).
  destruct (draws_forEachFrom_closed
              (fun cs => length (List.filter isSaveCall cs)
                         = length (List.filter isRestoreCall cs))
              (fun lms index =>
                 FaceMeshRenderer measureText lms w h latestCaption
                   (Some (bool_decide (Some index = selected))))
              0 sets)
    as (cs & Hcs & Hbalanced & Hempty).
  { reflexivity. }
  { intros cs1 cs2 H1 H2. rewrite !List.filter_app, !length_app. lia. }
  { intros lms index.
    destruct (FaceMeshRenderer_balanced measureText lms w h latestCaption
                (Some (bool_decide (Some index = selected))))
      as (cs & Hdraws & Hbalanced & _).
    exists cs. auto. }
  exists cs. split; [|split; [exact Hbalanced | exact Hempty]].
  assert (Hrest : performs
    (forEach sets
       (fun lms index =>
          FaceMeshRenderer measureText lms w h latestCaption
            (Some (bool_decide (Some index = selected))));;
     emit (SetFaces updatedFaces);; call Restore)
    (cs ++ [Restore]) [SetFaces updatedFaces]).
  { apply performs_draws_then; [exact Hcs|].
    apply performs_emit_then, performs_call. }
  do 4 apply performs_call_then.
  unfold when. destruct (bool_decide (selected = activeFaceId)); cbn [negb app].
  - intros world. unfold bind at 1. unfold ret. apply Hrest.
  - apply performs_emit_then. exact Hrest.
Qed.

(** A pass on a canvas with a drawing context never throws. It saves the
    context, clears the canvas and mirrors it, draws the faces, and
    restores the context; the drawing of the faces restores the context as
    often as it saves it. It tells the selected id when this is not the
    active id, and then the records of the pass, once. The size used is the
    size of the video when there is one, and of the canvas otherwise. *)
Theorem onResults_performs
    (measureText : string -> string -> R) (canvas : CanvasElement)
    (video : option (R * R)) (clock : nat -> Z) (history : gmap nat R)
    (activeFaceId : option nat) (latestCaption : Caption)
    (multiFaceLandmarks : option (list (list FaceLandmark))) :
  canvas.(context2d) = true ->
  let size := default (canvas.(width), canvas.(height)) video in
  let sets := default [] multiFaceLandmarks in
  let speaking := speakingFaceOf clock history activeFaceId multiFaceLandmarks in
  exists cs,
    performs (onResults measureText (Some canvas) video clock history
                activeFaceId latestCaption multiFaceLandmarks).2
      ([Save; ClearRect 0 0 size.1 size.2; Scale (-1) 1; Translate (- size.1) 0]
         ++ cs ++ [Restore])
      ((if bool_decide (speaking = activeFaceId) then []
        else [OnActiveFaceChange speaking])
         ++ [SetFaces (updateFaces clock history 0 sets).2])
    /\ length (List.filter isSaveCall cs) = length (List.filter isRestoreCall cs).
Proof.
  intros Hctx size sets speaking.
  unfold onResults. rewrite Hctx. cbn [negb].
  assert (Hsize : match video with
                  | Some s => s
                  | None => (canvas.(width), canvas.(height))
                  end = (size.1, size.2)).
  { unfold size. destruct video as [[vw vh]|]; reflexivity. }
  rewrite Hsize.
  destruct (processFrame_performs measureText size.1 size.2 clock history
              activeFaceId latestCaption multiFaceLandmarks)
    as (cs & Hperforms & Hbalanced & _).
  exists cs. split; [exact Hperforms | exact Hbalanced].
Qed.

Lemma onResults_performs_witness :
  let canvas := mkCanvas 640 480 true in
  let speaking := speakingFaceOf (fun _ => 0%Z) ∅ (Some 5%nat) (Some [[]]) in
  exists cs,
    performs (onResults (fun _ _ => 0) (Some canvas) (Some (320, 240))
                (fun _ => 0%Z) ∅ (Some 5%nat) (mkCaption "" 0) (Some [[]])).2
      ([Save; ClearRect 0 0 320 240; Scale (-1) 1; Translate (Ropp 320) 0]
         ++ cs ++ [Restore])
      ((if bool_decide (speaking = Some 5%nat) then []
        else [OnActiveFaceChange speaking])
         ++ [SetFaces (updateFaces (fun _ => 0%Z) ∅ 0 [[]]).2])
    /\ length (List.filter isSaveCall cs) = length (List.filter isRestoreCall cs).
Proof.
  intros canvas.
  exact (onResults_performs (fun _ _ => 0) canvas (Some (320, 240))
           (fun _ => 0%Z) ∅ (Some 5%nat) (mkCaption "" 0) (Some [[]]) eq_refl).
Defined.

(** A pass without a face, be the list of landmark sets missing or empty:
    the history is kept, the selector returns the active id, so that no
    change is told, the records told are none, and nothing is drawn between
    the mirroring and the restoring of the context. *)
Theorem onResults_no_face
    (measureText : string -> string -> R) (canvas : CanvasElement)
    (video : option (R * R)) (clock : nat -> Z) (history : gmap nat R)
    (activeFaceId : option nat) (latestCaption : Caption)
    (multiFaceLandmarks : option (list (list FaceLandmark))) :
  canvas.(context2d) = true ->
  default [] multiFaceLandmarks = [] ->
  let size := default (canvas.(width), canvas.(height)) video in
  let pass := onResults measureText (Some canvas) video clock history
                activeFaceId latestCaption multiFaceLandmarks in
  pass.1 = history
  /\ speakingFaceOf clock history activeFaceId multiFaceLandmarks = activeFaceId
  /\ performs pass.2
       [Save; ClearRect 0 0 size.1 size.2; Scale (-1) 1; Translate (- size.1) 0;
        Restore]
       [SetFaces []].
Proof.
  intros Hctx Hnone size pass.
  assert (Hspeaking :
            speakingFaceOf clock history activeFaceId multiFaceLandmarks
            = activeFaceId).
  { unfold speakingFaceOf. rewrite Hnone. simpl.
    destruct activeFaceId; reflexivity. }
  assert (Hsize : match video with
                  | Some s => s
                  | None => (canvas.(width), canvas.(height))
                  end = (size.1, size.2)).
  { unfold size. destruct video as [[vw vh]|]; reflexivity. }
  split; [|split; [exact Hspeaking|]].
  - unfold pass, onResults. rewrite Hctx, Hsize. cbn [negb].
    unfold processFrame. rewrite Hnone. reflexivity.
  - destruct (processFrame_performs measureText size.1 size.2 clock history
                activeFaceId latestCaption multiFaceLandmarks)
      as (cs & Hperforms & _ & Hempty).
    rewrite (Hempty Hnone), Hspeaking, Hnone in Hperforms.
    rewrite bool_decide_eq_true_2 in Hperforms by reflexivity.
    unfold pass, onResults. rewrite Hctx, Hsize. cbn [negb]. exact Hperforms.
Qed.

Lemma onResults_no_face_witness :
  let canvas := mkCanvas 640 480 true in
  let pass := onResults (fun _ _ => 0) (Some canvas) None (fun _ => 0%Z)
                (<[0%nat := 1]> ∅) (Some 0%nat) (mkCaption "hello" 0) None in
  pass.1 = <[0%nat := 1]> ∅
  /\ speakingFaceOf (fun _ => 0%Z) (<[0%nat := 1]> ∅) (Some 0%nat) None
     = Some 0%nat
  /\ performs pass.2
       [Save; ClearRect 0 0 640 480; Scale (-1) 1; Translate (Ropp 640) 0; Restore]
       [SetFaces []].
Proof.
  intros canvas.
  exact (onResults_no_face (fun _ _ => 0) canvas None (fun _ => 0%Z)
           (<[0%nat := 1]> ∅) (Some 0%nat) (mkCaption "hello" 0) None
           eq_refl eq_refl).
Defined.

(** The tracker and the selector together. When the clock readings of a
    pass lie less than the timeout apart, the pass selects, among the faces
    of the frame, the first of those with the largest openness: the id
    returned is its position in the frame, whatever the history, the
    movement of the mouths and the previous active id. *)
Theorem speakingFaceOf_widest
    (clock : nat -> Z) (history : gmap nat R) (activeFaceId : option nat)
    (sets : list (list FaceLandmark)) :
  sets <> [] ->
  (forall k, (k < length sets)%nat ->
     (clock (length sets) - clock k < MOUTH_MOVEMENT_TIMEOUT)%Z) ->
  exists k lms,
    sets !! k = Some lms
    /\ speakingFaceOf clock history activeFaceId (Some sets) = Some k
    /\ (forall j lms', (j < k)%nat -> sets !! j = Some lms' ->
          calculateMouthOpenness lms' < calculateMouthOpenness lms)
    /\ (forall j lms', sets !! j = Some lms' ->
          calculateMouthOpenness lms' <= calculateMouthOpenness lms).
Proof.
  intros Hsets Hclock. unfold speakingFaceOf.
  change (default [] (Some sets)) with sets.
  destruct (updateFaces_spec clock sets history 0) as (Hlen & _ & Hrecords).
  set (faces := (updateFaces clock history 0 sets).2) in *.
  assert (Hrecord : forall j lms', sets !! j = Some lms' ->
            exists face,
              faces !! j = Some face /\ face.(id) = j
              /\ face.(mouthOpenDistance) = calculateMouthOpenness lms'
              /\ face.(lastUpdateTime) = clock j).
  { intros j lms' Hj. destruct (Hrecords j lms' Hj) as [_ Hface].
    eexists. split; [exact Hface|]. simpl. auto. }
  assert (Hall : Forall (fun face =>
                   isMovingFace (clock (length sets)) face = true) faces).
  { apply Forall_lookup. intros j face Hface.
    assert (Hj : (j < length sets)%nat)
      by (rewrite <- Hlen; eapply lookup_lt_Some, Hface).
    destruct (lookup_lt_is_Some_2 sets j Hj) as [lms' Hlms'].
    destruct (Hrecord j lms' Hlms') as (face' & Hface' & _ & _ & Htime).
    rewrite Hface in Hface'. injection Hface' as <-.
    unfold isMovingFace. rewrite Htime.
    apply orb_true_iff. right. apply Z.ltb_lt, Hclock, Hj. }
  apply filter_all in Hall.
  destruct (determineSpeakingFace_moving (clock (length sets)) activeFaceId faces)
    as (face & Hlargest & Hselected).
  { rewrite Hall. intros Hnil. apply Hsets, length_zero_iff_nil.
    rewrite <- Hlen, Hnil. reflexivity. }
  rewrite Hall in Hlargest.
  pose proof (isFirstLargest_bound _ _ Hlargest) as Hbound.
  destruct Hlargest as (before & after & Hfaces & Hbefore & _).
  assert (Hface : faces !! length before = Some face)
    by (rewrite Hfaces; apply list_lookup_middle; reflexivity).
  assert (Hk : (length before < length sets)%nat)
    by (rewrite <- Hlen; eapply lookup_lt_Some, Hface).
  destruct (lookup_lt_is_Some_2 sets _ Hk) as [lms Hlms].
  destruct (Hrecord _ lms Hlms) as (face' & Hface' & Hid & Hopen & _).
  rewrite Hface in Hface'. injection Hface' as <-.
  exists (length before), lms. split; [exact Hlms|]. split; [|split].
  - rewrite Hselected, Hid. reflexivity.
  - intros j lms' Hj Hlms'.
    destruct (Hrecord j lms' Hlms') as (other & Hother & _ & Hopen' & _).
    rewrite Hfaces, lookup_app_l in Hother by exact Hj.
    rewrite <- Hopen, <- Hopen'.
    rewrite Forall_lookup in Hbefore. apply (Hbefore j other Hother).
  - intros j lms' Hlms'.
    destruct (Hrecord j lms' Hlms') as (other & Hother & _ & Hopen' & _).
    rewrite <- Hopen, <- Hopen'.
    rewrite Forall_lookup in Hbound. apply (Hbound j other Hother).
Qed.

Lemma speakingFaceOf_widest_witness :
  exists k lms,
    [[]; replicate 15 (mkFaceLandmark 0 0 0)] !! k = Some lms
    /\ speakingFaceOf (fun _ => 0%Z) ∅ (Some 1%nat)
         (Some [[]; replicate 15 (mkFaceLandmark 0 0 0)]) = Some k
    /\ (forall j lms', (j < k)%nat ->
          [[]; replicate 15 (mkFaceLandmark 0 0 0)] !! j = Some lms' ->
          calculateMouthOpenness lms' < calculateMouthOpenness lms)
    /\ (forall j lms',
          [[]; replicate 15 (mkFaceLandmark 0 0 0)] !! j = Some lms' ->
          calculateMouthOpenness lms' <= calculateMouthOpenness lms).
Proof.
  apply (speakingFaceOf_widest (fun _ => 0%Z) ∅ (Some 1%nat)
           [[]; replicate 15 (mkFaceLandmark 0 0 0)]).
  - discriminate.
  - intros k _. reflexivity.
Defined.

Lemma onResults_no_canvas_witness :
  let '(history', run) :=
    onResults (fun _ _ => 0) None None (fun _ => 0%Z) ∅ None (mkCaption "" 0)
      (Some [[]]) in
  history' = ∅ /\ run emptyWorld = (Normal tt, emptyWorld).
Proof.
  apply (onResults_no_canvas (fun _ _ => 0) None None (fun _ => 0%Z) ∅ None
           (mkCaption "" 0) (Some [[]]) emptyWorld).
  exact I.
Defined.

Lemma onResults_carries_selection_witness :
  let canvas := mkCanvas 640 480 true in
  let speaking := speakingFaceOf (fun _ => 0%Z) ∅ None (Some [[]]) in
  let after :=
    ((onResults (fun _ _ => 0) (Some canvas) None (fun _ => 0%Z) ∅ None
        (mkCaption "" 0) (Some [[]])).2 emptyWorld).2 in
  List.last (notifications after.(effects)) None = speaking.
Proof.
  intros canvas.
  apply (onResults_carries_selection (fun _ _ => 0) canvas None (fun _ => 0%Z)
           ∅ None (mkCaption "" 0) (Some [[]]) emptyWorld);
    reflexivity.
Defined.

(** ** The transcript of the recognition results *)

Lemma append_nil_r s : s +:+ "" = s.
Proof.
  induction s as [|c s IH]; [reflexivity|]. rewrite append_cons, IH. reflexivity.
Qed.

Lemma concat_empty_cons piece pieces :
  String.concat "" (piece :: pieces) = piece +:+ String.concat "" pieces.
Proof.
  destruct pieces as [|next pieces]; [|reflexivity].
  simpl. rewrite append_nil_r. reflexivity.
Qed.

Lemma concat_empty_app pieces1 pieces2 :
  String.concat "" (pieces1 ++ pieces2)
  = String.concat "" pieces1 +:+ String.concat "" pieces2.
Proof.
  induction pieces1 as [|piece pieces1 IH]; [reflexivity|].
  change ((piece :: pieces1) ++ pieces2) with (piece :: (pieces1 ++ pieces2)).
  rewrite !concat_empty_cons, IH, append_assoc. reflexivity.
Qed.

Lemma firstTranscripts_app results1 results2 ts1 ts2 :
  firstTranscripts results1 = Normal ts1 ->
  firstTranscripts results2 = Normal ts2 ->
  firstTranscripts (results1 ++ results2) = Normal (ts1 ++ ts2).
Proof.
  revert ts1. induction results1 as [|result results1 IH]; intros ts1 H1 H2.
  - injection H1 as <-. exact H2.
  - simpl in *. destruct (firstTranscript result) as [t|e]; [|discriminate].
    destruct (firstTranscripts results1) as [ts|e]; [|discriminate].
    injection H1 as <-. rewrite (IH ts eq_refl H2). reflexivity.
Qed.

Lemma firstTranscripts_normal results :
  Forall (fun result => result.(alternatives) <> []) results ->
  firstTranscripts results
  = Normal (omap (fun result => transcript <$> head result.(alternatives)) results).
Proof.
  induction 1 as [|result results Hresult _ IH]; [reflexivity|].
  cbn [firstTranscripts]. unfold firstTranscript.
  destruct (alternatives result) as [|alternative others] eqn:Halts; [congruence|].
  cbn. rewrite Halts. cbn. rewrite IH. reflexivity.
Qed.

Lemma firstTranscripts_throw results :
  Exists (fun result => result.(alternatives) = []) results ->
  exists e, firstTranscripts results = Throw e.
Proof.
  induction 1 as [result results Hresult|result results _ [e IH]].
  - cbn [firstTranscripts]. unfold firstTranscript. rewrite Hresult. cbn. eauto.
  - cbn [firstTranscripts]. rewrite IH.
    destruct (firstTranscript result); eauto.
Qed.

(** The transcript handed to the caption. When every result has an
    alternative, it is the transcripts of the first alternatives put end to
    end, in the order of the results; the other alternatives and the
    finality of the results play no part. When a result has no
    alternative, the handler throws. And the transcript of results put
    end to end is the transcripts put end to end. *)
Theorem transcriptOf_spec (results : list SpeechRecognitionResult) :
  (Forall (fun result => result.(alternatives) <> []) results ->
   transcriptOf results
   = Normal (String.concat ""
               (omap (fun result => transcript <$> head result.(alternatives))
                  results)))
  /\ (Exists (fun result => result.(alternatives) = []) results ->
      exists e, transcriptOf results = Throw e)
  /\ (forall more t1 t2,
        transcriptOf results = Normal t1 -> transcriptOf more = Normal t2 ->
        transcriptOf (results ++ more) = Normal (t1 +:+ t2)).
Proof.
  unfold transcriptOf. split; [|split].
  - intros Hall. rewrite firstTranscripts_normal by exact Hall. reflexivity.
  - intros Hsome. destruct (firstTranscripts_throw results Hsome) as [e ->]. eauto.
  - intros more t1 t2 H1 H2.
    destruct (firstTranscripts results) as [ts1|e1] eqn:Hts1; [|discriminate].
    destruct (firstTranscripts more) as [ts2|e2] eqn:Hts2; [|discriminate].
    injection H1 as <-. injection H2 as <-.
    rewrite (firstTranscripts_app results more ts1 ts2 Hts1 Hts2).
    rewrite concat_empty_app. reflexivity.
Qed.

(** Two results, the first with two alternatives. *)
Lemma transcriptOf_spec_witness :
  transcriptOf
    [mkResult [mkAlternative "hello " 1; mkAlternative "yellow " 0] true;
     mkResult [mkAlternative "world" 1] false]
  = Normal "hello world".
Proof.
  apply (proj1 (transcriptOf_spec
    [mkResult [mkAlternative "hello " 1; mkAlternative "yellow " 0] true;
     mkResult [mkAlternative "world" 1] false])).
  repeat constructor; discriminate.
Defined.

(** ** The captions of a pass *)

(** A loop whose body only draws: a relation between items and calls that
    holds of each turn, of nothing, and of things put end to end, holds of
    the loop. *)
Lemma draws_forEachFrom_related {A} (Q : list A -> list CanvasCall -> Prop)
    (f : A -> nat -> Js unit) index (l : list A) :
  Q [] [] ->
  (forall l1 l2 cs1 cs2, Q l1 cs1 -> Q l2 cs2 -> Q (l1 ++ l2) (cs1 ++ cs2)) ->
  (forall item i, exists cs, draws (f item i) cs /\ Q [item] cs) ->
  exists cs, draws (forEachFrom index l f) cs /\ Q l cs.
Proof.
  intros Hnil Happ Hf. revert index.
  induction l as [|item l IH]; intros index; simpl.
  - exists []. split; [apply draws_ret | exact Hnil].
  - destruct (Hf item index) as (cs1 & Hcs1 & HQ1).
    destruct (IH (S index)) as (cs2 & Hcs2 & HQ2).
    exists (cs1 ++ cs2). split; [apply draws_bind; assumption|].
    apply (Happ [item] l cs1 cs2 HQ1 HQ2).
Qed.

(** The caption bubbles of a pass: one for each face of the frame that has
    the anchor landmark, all of the height of the wrapped caption text,
    whichever face is the active one; and none when the caption text is
    empty. *)
Theorem onResults_bubbles
    (measureText : string -> string -> R) (canvas : CanvasElement)
    (video : option (R * R)) (clock : nat -> Z) (history : gmap nat R)
    (activeFaceId : option nat) (latestCaption : Caption)
    (multiFaceLandmarks : option (list (list FaceLandmark))) :
  canvas.(context2d) = true ->
  let bubbleHeight :=
    Rmax (20 * INR (length (wrapText (measureText captionFont)
                              latestCaption.(text) (300 - 40))) + 20) 46 in
  exists cs es,
    performs (onResults measureText (Some canvas) video clock history
                activeFaceId latestCaption multiFaceLandmarks).2 cs es
    /\ bubbleHeights cs
       = flat_map (fun lms : list FaceLandmark =>
                     if truthy (lms !! 10%nat) && truthy_string latestCaption.(text)
                     then [bubbleHeight] else [])
           (default [] multiFaceLandmarks).
Proof.
  intros Hctx bubbleHeight.
  unfold onResults. rewrite Hctx. cbn [negb].
  destruct (match video with Some s => s | None => _ end) as [w h].
  unfold processFrame.
  set (sets := default [] multiFaceLandmarks).
  destruct (updateFaces clock history 0 sets) as [history' updatedFaces].
  cbn [fst snd].
  set (selected := determineSpeakingFace _ activeFaceId updatedFaces).
  destruct (draws_forEachFrom_related
              (fun l cs =>
                 bubbleHeights cs
                 = flat_map (fun lms : list FaceLandmark =>
                     if truthy (lms !! 10%nat) && truthy_string latestCaption.(text)
                     then [bubbleHeight] else []) l)
              (fun lms index =>
                 FaceMeshRenderer measureText lms w h latestCaption
                   (Some (bool_decide (Some index = selected))))
              0 sets)
    as (cs & Hcs & Hbubbles).
  { reflexivity. }
  { intros l1 l2 cs1 cs2 H1 H2. rewrite bubbleHeights_app, flat_map_app, H1, H2.
    reflexivity. }
  { intros lms index.
    destruct (FaceMeshRenderer_draws measureText lms w h latestCaption
                (Some (bool_decide (Some index = selected))))
      as (cs & Hdraws & Hcases).
    exists cs. split; [exact Hdraws|]. cbn [flat_map]. rewrite app_nil_r.
    destruct (lms !! 10%nat) as [forehead|]; cbn [truthy andb].
    - exact Hcases.
    - apply bubbleHeights_mesh, Hcases. }
  assert (Hrest : performs
    (forEach sets
       (fun lms index =>
          FaceMeshRenderer measureText lms w h latestCaption
            (Some (bool_decide (Some index = selected))));;
     emit (SetFaces updatedFaces);; call Restore)
    (cs ++ [Restore]) [SetFaces updatedFaces]).
  { apply performs_draws_then; [exact Hcs|].
    apply performs_emit_then, performs_call. }
  unfold when. destruct (bool_decide (selected = activeFaceId)); cbn [negb].
  - eexists _, _. split.
    + do 4 apply performs_call_then.
      intros world. unfold bind at 1. unfold ret. apply Hrest.
    + transitivity (bubbleHeights (cs ++ [Restore])); [reflexivity|].
      rewrite bubbleHeights_app, Hbubbles. apply app_nil_r.
  - eexists _, _. split.
    + do 4 apply performs_call_then. apply performs_emit_then. exact Hrest.
    + transitivity (bubbleHeights (cs ++ [Restore])); [reflexivity|].
      rewrite bubbleHeights_app, Hbubbles. apply app_nil_r.
Qed.

Lemma onResults_bubbles_witness :
  let canvas := mkCanvas 640 480 true in
  let sets := [replicate 11 (mkFaceLandmark 0 0 0); []] in
  let bubbleHeight :=
    Rmax (20 * INR (length (wrapText (fun _ => 0) "hello" (300 - 40))) + 20) 46 in
  exists cs es,
    performs (onResults (fun _ _ => 0) (Some canvas) None (fun _ => 0%Z) ∅
                (Some 0%nat) (mkCaption "hello" 0) (Some sets)).2 cs es
    /\ bubbleHeights cs
       = flat_map (fun lms : list FaceLandmark =>
                     if truthy (lms !! 10%nat) && truthy_string "hello"
                     then [bubbleHeight] else []) sets.
Proof.
  intros canvas sets.
  exact (onResults_bubbles (fun _ _ => 0) canvas None (fun _ => 0%Z) ∅
           (Some 0%nat) (mkCaption "hello" 0) (Some sets) eq_refl).
Defined.
